(** * The versioned server configuration store of [cmd/config-current.go]

    A shallow embedding of the configuration store, its credential cache
    and resolver, the duplicate-key check on the persisted JSON document
    and the load / publish life cycle, followed by the properties the
    specification states about them.

    Go maps are finite maps ([gmap]); indexing a map at an absent key
    gives the zero value of the element type.  The map of a store may be
    nil: a nil map reads as an empty one, and an assignment to an entry
    of it panics.  The package-level
    variables are one record, threaded through every method together
    with the receiver. *)

From stdpp Require Import base option list strings gmap fin_maps.
From Stdlib Require Import ZArith.
From Equations Require Import Equations.

Set Warnings "-register-all".

Local Open Scope string_scope.

(** ** Iteration over a Go map

    [for k, v := range m] visits every entry of [m] exactly once, in an
    order the language leaves unspecified.  The order is an interface:
    every function below that ranges over a map takes an instance, and
    every theorem holds for all of them. *)

Class MapRange := {
  range : ∀ {A : Type}, gmap string A → list (string * A);
  range_perm : ∀ (A : Type) (m : gmap string A), range m ≡ₚ map_to_list m
}.

(** The order in which [map_to_list] enumerates is one such order. *)
#[export] Instance listedRange : MapRange :=
  {| range := λ A m, map_to_list m;
     range_perm := λ A m, reflexivity (map_to_list m) |}.

(** ** Data model *)

(** [auth.Credentials]: an access key and a secret key. *)
Record Credentials := mkCredentials {
  AccessKey : string;
  SecretKey : string
}.

(** [auth.Credentials{}], the zero value. *)
Definition zeroCredentials : Credentials :=
  {| AccessKey := ""; SecretKey := "" |}.

#[export] Instance Credentials_eq_dec : EqDecision Credentials.
Proof. solve_decision. Defined.

#[export] Instance Credentials_inhabited : Inhabited Credentials :=
  populate zeroCredentials.

(** [storageClass]: a scheme tag and a parity count. *)
Record storageClass := mkStorageClass {
  Scheme : string;
  Parity : Z
}.

Record storageClassConfig := mkStorageClassConfig {
  Standard : storageClass;
  RRS : storageClass
}.

Definition zeroStorageClass : storageClass := {| Scheme := ""; Parity := 0 |}.

(** Go's [error]: the value carries its message. *)
Definition error := string.

(** [m[k]] on a Go map of credentials: the zero value when [k] is absent. *)
Definition index (m : gmap string Credentials) (k : string) : Credentials :=
  default zeroCredentials (m !! k).

(** A value of type [map[string]auth.Credentials]: nil, or a map that
    [make] or the decoder has made. *)
Inductive credMap :=
| nilMap
| madeMap (made : gmap string Credentials).

(** The entries of a map; a nil map has none.  Indexing, [range] and
    [delete] see a map through its entries. *)
Definition entries (m : credMap) : gmap string Credentials :=
  match m with
  | nilMap => ∅
  | madeMap made => made
  end.

Coercion entries : credMap >-> gmap.

#[export] Instance credMap_lookup : Lookup string Credentials credMap :=
  λ k m, entries m !! k.

(** [m[k] = v]: [None] is the panic of an assignment to an entry in a
    nil map. *)
Definition assignEntry (k : string) (v : Credentials) (m : credMap) : option credMap :=
  match m with
  | nilMap => None
  | madeMap made => Some (madeMap (<[k := v]> made))
  end.

(** Modelled from the spec: [Credentials.IsValid] is defined in
    [pkg/auth], outside this file.  The specification says it is true
    iff both fields are non-empty and meet format constraints defined by
    the collaborator.  The development is parametric in the predicate
    and uses of it only that a valid credential has both fields
    non-empty. *)
Class Validity := {
  IsValid : Credentials → bool;
  IsValid_nonempty :
    ∀ c, IsValid c = true → AccessKey c ≠ "" ∧ SecretKey c ≠ ""
}.

(** Modelled from the spec: the validity predicate with no format
    constraint beyond non-emptiness, for use where a concrete one is
    needed. *)
Definition nonEmptyIsValid (c : Credentials) : bool :=
  negb (bool_decide (AccessKey c = "")) && negb (bool_decide (SecretKey c = "")).

#[export] Instance nonEmptyValidity : Validity.
Proof.
  refine {| IsValid := nonEmptyIsValid |}.
  unfold nonEmptyIsValid. intros c [H1 H2]%andb_prop.
  apply negb_true_iff, bool_decide_eq_false in H1, H2. done.
Defined.

Section Store.

(** The notification block is opaque to the store. *)
Context {notifier : Type}.

(** [serverConfig] (alias of [serverConfigV23]), without its embedded
    read/write lock.  [Notify] is a pointer, [None] when nil. *)
Record serverConfig := mkServerConfig {
  Version : string;
  Credential : Credentials;
  Region : string;
  Browser : bool;
  Domain : string;
  StorageClass : storageClassConfig;
  Notify : option notifier;
  Bucket : credMap
}.

(** The package-level variables other than the pointer to the published
    store. *)
Record Globals := mkGlobals {
  globalServerCredCache : gmap string Credentials;
  globalIsStorageClass : bool;
  globalIsEnvCreds : bool;
  globalIsEnvBrowser : bool;
  globalIsEnvRegion : bool;
  globalIsEnvDomainName : bool;
  globalActiveCred : Credentials;
  globalIsBrowserEnabled : bool;
  globalServerRegion : string;
  globalDomainName : string;
  globalStandardStorageClass : storageClass;
  globalRRStorageClass : storageClass
}.

(** What a method sees: its receiver [s] and the package-level
    variables. *)
Record MState := mkMState {
  self : serverConfig;
  vars : Globals
}.

(** *** Field assignments *)

Definition withRegion (region : string) (s : serverConfig) : serverConfig :=
  {| Version := Version s; Credential := Credential s; Region := region;
     Browser := Browser s; Domain := Domain s; StorageClass := StorageClass s;
     Notify := Notify s; Bucket := Bucket s |}.

Definition withCredential (creds : Credentials) (s : serverConfig) : serverConfig :=
  {| Version := Version s; Credential := creds; Region := Region s;
     Browser := Browser s; Domain := Domain s; StorageClass := StorageClass s;
     Notify := Notify s; Bucket := Bucket s |}.

Definition withBrowser (b : bool) (s : serverConfig) : serverConfig :=
  {| Version := Version s; Credential := Credential s; Region := Region s;
     Browser := b; Domain := Domain s; StorageClass := StorageClass s;
     Notify := Notify s; Bucket := Bucket s |}.

Definition withDomain (d : string) (s : serverConfig) : serverConfig :=
  {| Version := Version s; Credential := Credential s; Region := Region s;
     Browser := Browser s; Domain := d; StorageClass := StorageClass s;
     Notify := Notify s; Bucket := Bucket s |}.

Definition withStorageClass (sc : storageClassConfig) (s : serverConfig) : serverConfig :=
  {| Version := Version s; Credential := Credential s; Region := Region s;
     Browser := Browser s; Domain := Domain s; StorageClass := sc;
     Notify := Notify s; Bucket := Bucket s |}.

Definition withBucket (b : credMap) (s : serverConfig) : serverConfig :=
  {| Version := Version s; Credential := Credential s; Region := Region s;
     Browser := Browser s; Domain := Domain s; StorageClass := StorageClass s;
     Notify := Notify s; Bucket := b |}.

Definition withCredCache (c : gmap string Credentials) (g : Globals) : Globals :=
  {| globalServerCredCache := c;
     globalIsStorageClass := globalIsStorageClass g;
     globalIsEnvCreds := globalIsEnvCreds g;
     globalIsEnvBrowser := globalIsEnvBrowser g;
     globalIsEnvRegion := globalIsEnvRegion g;
     globalIsEnvDomainName := globalIsEnvDomainName g;
     globalActiveCred := globalActiveCred g;
     globalIsBrowserEnabled := globalIsBrowserEnabled g;
     globalServerRegion := globalServerRegion g;
     globalDomainName := globalDomainName g;
     globalStandardStorageClass := globalStandardStorageClass g;
     globalRRStorageClass := globalRRStorageClass g |}.

Definition withIsStorageClass (b : bool) (g : Globals) : Globals :=
  {| globalServerCredCache := globalServerCredCache g;
     globalIsStorageClass := b;
     globalIsEnvCreds := globalIsEnvCreds g;
     globalIsEnvBrowser := globalIsEnvBrowser g;
     globalIsEnvRegion := globalIsEnvRegion g;
     globalIsEnvDomainName := globalIsEnvDomainName g;
     globalActiveCred := globalActiveCred g;
     globalIsBrowserEnabled := globalIsBrowserEnabled g;
     globalServerRegion := globalServerRegion g;
     globalDomainName := globalDomainName g;
     globalStandardStorageClass := globalStandardStorageClass g;
     globalRRStorageClass := globalRRStorageClass g |}.

Definition withActiveCred (c : Credentials) (g : Globals) : Globals :=
  {|   globalServerCredCache := globalServerCredCache g;
     globalIsStorageClass := globalIsStorageClass g;
     globalIsEnvCreds := globalIsEnvCreds g;
     globalIsEnvBrowser := globalIsEnvBrowser g;
     globalIsEnvRegion := globalIsEnvRegion g;
     globalIsEnvDomainName := globalIsEnvDomainName g;
     globalActiveCred := c;
     globalIsBrowserEnabled := globalIsBrowserEnabled g;
     globalServerRegion := globalServerRegion g;
     globalDomainName := globalDomainName g;
     globalStandardStorageClass := globalStandardStorageClass g;
     globalRRStorageClass := globalRRStorageClass g |}.

Definition withIsBrowserEnabled (b : bool) (g : Globals) : Globals :=
  {|   globalServerCredCache := globalServerCredCache g;
     globalIsStorageClass := globalIsStorageClass g;
     globalIsEnvCreds := globalIsEnvCreds g;
     globalIsEnvBrowser := globalIsEnvBrowser g;
     globalIsEnvRegion := globalIsEnvRegion g;
     globalIsEnvDomainName := globalIsEnvDomainName g;
     globalActiveCred := globalActiveCred g;
     globalIsBrowserEnabled := b;
     globalServerRegion := globalServerRegion g;
     globalDomainName := globalDomainName g;
     globalStandardStorageClass := globalStandardStorageClass g;
     globalRRStorageClass := globalRRStorageClass g |}.

Definition withServerRegion (r : string) (g : Globals) : Globals :=
  {|   globalServerCredCache := globalServerCredCache g;
     globalIsStorageClass := globalIsStorageClass g;
     globalIsEnvCreds := globalIsEnvCreds g;
     globalIsEnvBrowser := globalIsEnvBrowser g;
     globalIsEnvRegion := globalIsEnvRegion g;
     globalIsEnvDomainName := globalIsEnvDomainName g;
     globalActiveCred := globalActiveCred g;
     globalIsBrowserEnabled := globalIsBrowserEnabled g;
     globalServerRegion := r;
     globalDomainName := globalDomainName g;
     globalStandardStorageClass := globalStandardStorageClass g;
     globalRRStorageClass := globalRRStorageClass g |}.

Definition withDomainName (d : string) (g : Globals) : Globals :=
  {|   globalServerCredCache := globalServerCredCache g;
     globalIsStorageClass := globalIsStorageClass g;
     globalIsEnvCreds := globalIsEnvCreds g;
     globalIsEnvBrowser := globalIsEnvBrowser g;
     globalIsEnvRegion := globalIsEnvRegion g;
     globalIsEnvDomainName := globalIsEnvDomainName g;
     globalActiveCred := globalActiveCred g;
     globalIsBrowserEnabled := globalIsBrowserEnabled g;
     globalServerRegion := globalServerRegion g;
     globalDomainName := d;
     globalStandardStorageClass := globalStandardStorageClass g;
     globalRRStorageClass := globalRRStorageClass g |}.

Definition withStorageClasses (ssc rrsc : storageClass) (g : Globals) : Globals :=
  {|   globalServerCredCache := globalServerCredCache g;
     globalIsStorageClass := globalIsStorageClass g;
     globalIsEnvCreds := globalIsEnvCreds g;
     globalIsEnvBrowser := globalIsEnvBrowser g;
     globalIsEnvRegion := globalIsEnvRegion g;
     globalIsEnvDomainName := globalIsEnvDomainName g;
     globalActiveCred := globalActiveCred g;
     globalIsBrowserEnabled := globalIsBrowserEnabled g;
     globalServerRegion := globalServerRegion g;
     globalDomainName := globalDomainName g;
     globalStandardStorageClass := ssc;
     globalRRStorageClass := rrsc |}.

(** *** The method monad: state passing over [MState] *)

Definition M (A : Type) : Type := MState → A * MState.

#[export] Instance M_ret : MRet M := λ A a st, (a, st).

#[export] Instance M_bind : MBind M :=
  λ A B k m st, let '(a, st') := m st in k a st'.

(** Read a field of the receiver. *)
Definition field {A} (f : serverConfig → A) : M A := λ st, (f (self st), st).

(** Assign to the receiver. *)
Definition assign (f : serverConfig → serverConfig) : M unit :=
  λ st, (tt, {| self := f (self st); vars := vars st |}).

(** Read the credential cache at a key (zero value when absent). *)
Definition cacheIndex (key : string) : M Credentials :=
  λ st, (index (globalServerCredCache (vars st)) key, st).

(** [globalServerCredCache[key] = cred]. *)
Definition cacheStore (key : string) (cred : Credentials) : M unit :=
  λ st, (tt, {| self := self st;
                vars := withCredCache (<[key := cred]> (globalServerCredCache (vars st)))
                                      (vars st) |}).

(** [delete(globalServerCredCache, key)]. *)
Definition cacheDelete (key : string) : M unit :=
  λ st, (tt, {| self := self st;
                vars := withCredCache (delete key (globalServerCredCache (vars st)))
                                      (vars st) |}).

End Store.

Arguments serverConfig : clear implicits.
Arguments MState : clear implicits.
Arguments M : clear implicits.


(** ** Accessors of the store *)

Section Accessors.

Context {notifier : Type}.

(** [Credentials.IsValid], supplied by [pkg/auth]. *)
Context {V : Validity}.

Context {R : MapRange}.

Local Abbreviation serverConfig := (serverConfig notifier).
Local Abbreviation M := (M notifier).

(** [GetVersion] get current config version. *)
Definition GetVersion : M string := field Version.

(** [SetRegion] set a new region. *)
Definition SetRegion (region : string) : M unit :=
  assign (withRegion region).

(** [GetRegion] get current region. *)
Definition GetRegion : M string := field Region.

(** [SetCredential] sets new credentials and returns the previous
    credentials. *)
Definition SetCredential (creds : Credentials) : M Credentials :=
  prevCred ← field Credential;
  assign (withCredential creds);;
  mret prevCred.

(** [GetCredential] gets the current credentials. *)
Definition GetCredential : M Credentials := field Credential.

(** [SetCredentialForBucket] sets new credentials for a bucket and
    returns the previous credentials.  The result is [None] when the
    call panics, which it does at the assignment [s.Bucket[bucket] =
    creds] on a store whose map is nil; the state is then the one reached
    at the panic. *)
Definition SetCredentialForBucket (bucket : string) (creds : Credentials)
  : M (option Credentials) :=
  if decide (bucket = "") then
    prevCred ← field Credential;
    assign (withCredential creds);;
    mret (Some prevCred)
  else
    (* Save previous credentials. *)
    prevCred ← field (λ s, index (Bucket s) bucket);
    (* If the credentials were valid, remove them from the cache. *)
    prevCred ← (if IsValid prevCred
                then cacheDelete (AccessKey prevCred);; mret prevCred
                else field Credential);
    (* Set updated credentials officially and in the cache. *)
    buckets ← field Bucket;
    match assignEntry bucket creds buckets with
    | None => mret None
    | Some buckets =>
        assign (withBucket buckets);;
        cacheStore (AccessKey creds) creds;;
        mret (Some prevCred)
    end.

(** [GetCredentialForBucket] get current credentials. *)
Definition GetCredentialForBucket (bucket : string) : M Credentials :=
  cred ← field (λ s, index (Bucket s) bucket);
  if negb (IsValid cred) then field Credential else mret cred.

(** The loop [for bucket, creds := range s.Bucket] with its early
    return at the first entry whose access key is [key]. *)
Definition scanBuckets (key : string) (buckets : credMap)
  : option (string * Credentials) :=
  List.find (λ entry, bool_decide (AccessKey entry.2 = key)) (range buckets).

(** [GetBucketForKey] returns the bucket name corresponding to a given
    access key, or the empty string if not found. *)
Definition GetBucketForKey (key : string) : M string :=
  root ← field Credential;
  (* Don't bother iterating if it's the master key. *)
  if decide (key = AccessKey root) then mret ""
  else
    (* Go hunting for the bucket. *)
    buckets ← field Bucket;
    match scanBuckets key buckets with
    | Some (bucket, _) => mret bucket
    | None => mret ""
    end.

(** [GetCredentialForKey]: attempt to find credentials for a given
    access key. *)
Definition GetCredentialForKey (key : string) : M Credentials :=
  cred ← field Credential;
  if decide (AccessKey cred = key) then mret cred
  else
    (* Try the cache for fast access. *)
    cred ← cacheIndex key;
    if IsValid cred && bool_decide (AccessKey cred = key) then mret cred
    else
      (* Go the slow way, looping through all the buckets. *)
      buckets ← field Bucket;
      match scanBuckets key buckets with
      | Some (_, cred) => cacheStore (AccessKey cred) cred;; mret cred
      | None => mret zeroCredentials
      end.

(** [SetBrowser] set if browser is enabled. *)
Definition SetBrowser (b : bool) : M unit :=
  assign (withBrowser b).

Definition SetStorageClass (standardClass rrsClass : storageClass) : M unit :=
  assign (λ s, withStorageClass
                 {| Standard := standardClass; RRS := RRS (StorageClass s) |} s);;
  assign (λ s, withStorageClass
                 {| Standard := Standard (StorageClass s); RRS := rrsClass |} s).

(** [GetBrowser]. *)
Definition GetBrowser : M bool := field Browser.

(** The parity rules of the storage-class collaborator, [None] when the
    parity is accepted. *)
Context (validateRRSParity validateSSParity : Z → Z → option error).

(** [globalIsStorageClass = true]. *)
Definition markStorageClass (st : MState notifier) : MState notifier :=
  {| self := self st; vars := withIsStorageClass true (vars st) |}.

(** [GetStorageClass] reads the storage class fields from the current
    config and validates them.  [fatalIf] ends the process on an error:
    the result is [None] then. *)
Definition GetStorageClass (st : MState notifier)
  : option ((storageClass * storageClass) * MState notifier) :=
  let ssc := Standard (StorageClass (self st)) in
  let rrsc := RRS (StorageClass (self st)) in
  st ← (if decide (Scheme rrsc ≠ "") then
          match validateRRSParity (Parity rrsc) (Parity ssc) with
          | Some _ => None
          | None => Some (markStorageClass st)
          end
        else Some st);
  st ← (if decide (Scheme ssc ≠ "") then
          match validateSSParity (Parity ssc) (Parity rrsc) with
          | Some _ => None
          | None => Some (markStorageClass st)
          end
        else Some st);
  Some ((Standard (StorageClass (self st)), RRS (StorageClass (self st))), st).

End Accessors.

(** ** The parsed JSON document

    The part of [github.com/tidwall/gjson] the duplicate-key check
    relies on. *)

Module gjson.

(** [gjson.Type] ([Type] is reserved here). *)
Inductive ResultType := Null | False | Number | String | True | JSON.

#[global] Instance ResultType_eq_dec : EqDecision ResultType.
Proof. solve_decision. Defined.

(** [gjson.Result], by what it denotes: the zero value [Result{}]; a
    literal (null, false, a number, a string, true) with the text
    [Result.String] renders it as; an object with its members in
    document order, repeated names included; an array. *)
Inductive Result :=
| Zero
| Literal (t : ResultType) (str : string)
| Object (members : list (string * Result))
| Array (elements : list Result).

(** [Result.Type]: the zero value has type [Null], objects and arrays
    have type [JSON]. *)
Definition TypeOf (r : Result) : ResultType :=
  match r with
  | Zero => Null
  | Literal t _ => t
  | Object _ | Array _ => JSON
  end.

(** [Result.String].  For objects and arrays it is the raw text, which
    this representation does not keep; keys are never of that type. *)
Definition StringOf (r : Result) : string :=
  match r with
  | Zero => ""
  | Literal _ str => str
  | Object _ | Array _ => ""
  end.

(** The calls [Result.ForEach] makes to its iterator, in order, as
    long as the iterator keeps returning true: none for a value that
    does not exist; for an object the key and the value of each item;
    for an array only the value of each item, the key being the zero
    [Result]; for any other value one call with the value itself. *)
Definition items (t : Result) : list (Result * Result) :=
  match t with
  | Zero => []
  | Literal _ _ => [(Zero, t)]
  | Object members => map (λ kv, (Literal String kv.1, kv.2)) members
  | Array elements => map (λ v, (Zero, v)) elements
  end.

(** [gjson.Parse]: the reading of a text as a document. *)
Class Parser := { Parse : string → Result }.

(** Nodes of a result, the measure the recursion over a document
    descends on. *)
Fixpoint size (r : Result) : nat :=
  match r with
  | Zero | Literal _ _ => 1
  | Object members =>
      S ((fix sum (ms : list (string * Result)) : nat :=
            match ms with [] => 0 | kv :: rest => size kv.2 + sum rest end) members)
  | Array elements =>
      S ((fix sum (es : list Result) : nat :=
            match es with [] => 0 | v :: rest => size v + sum rest end) elements)
  end.

(** The iteration itself: the iterator is called on each item until it
    returns false.  [S] is the state the Go closure captures.  The
    iterator is told that its arguments are an item of the list. *)
Fixpoint each {S : Type} (its : list (Result * Result)) :
    (∀ k v, In (k, v) its → S → S * bool) → S → S :=
  match its with
  | [] => λ _ st, st
  | kv :: rest => λ iterator st,
      let r := iterator kv.1 kv.2 (or_introl (surjective_pairing kv)) st in
      if r.2 then each rest (λ k v H, iterator k v (or_intror H)) r.1 else r.1
  end.

(** [Result.ForEach]. *)
Definition ForEach {S : Type} (t : Result)
    (iterator : ∀ k v, In (k, v) (items t) → S → S * bool) (st : S) : S :=
  each (items t) iterator st.

(** The same iteration for an iterator that takes no evidence. *)
Fixpoint forEach {S : Type} (its : list (Result * Result))
    (iterator : Result → Result → S → S * bool) (st : S) : S :=
  match its with
  | [] => st
  | kv :: rest =>
      let r := iterator kv.1 kv.2 st in
      if r.2 then forEach rest iterator r.1 else r.1
  end.

End gjson.

(** ** Duplicate keys in the persisted document *)

(** [keysOcc[name]++], on a map whose absent keys read as zero.  The
    count of a key is at most the number of members of one object. *)
Definition countKey (keysOcc : gmap string nat) (name : string) : gmap string nat :=
  <[name := S (default 0 (keysOcc !! name))]> keysOcc.

Section DupKeys.

Context {R : MapRange}.

(** [doCheckDupJSONKeys] recursively detects duplicate json keys.  The
    closure state is the pair of [keysOcc], the key occurrences of the
    current scope, and [checkErr], the found error.  The recursive call
    is made under the test that the key is not null, which holds for the
    members of an object only: that is why the recursion ends. *)
Equations? doCheckDupJSONKeys (key value : gjson.Result) : option error
  by wf (gjson.size value) lt :=
doCheckDupJSONKeys key value :=
  let r :=
    (* Iterate over keys in the current json scope *)
    gjson.ForEach value
      (λ k v Hin st,
         let st' :=
           (* If current key is not null, check if its value contains
              some duplicated keys. *)
           match decide (gjson.TypeOf k ≠ gjson.Null) with
           | left Hk =>
               (countKey st.1 (gjson.StringOf k), doCheckDupJSONKeys k v)
           | right _ => st
           end in
         (st', bool_decide (st'.2 = None)))
      ((∅ : gmap string nat), (None : option error)) in
  (* Check found err *)
  match r.2 with
  | Some e => Some (gjson.StringOf key +:+ " => " +:+ e)
  | None =>
      (* Check for duplicated keys *)
      match List.find (λ kv : string * nat, bool_decide (1 < kv.2)) (range r.1) with
      | Some kv =>
          Some (gjson.StringOf key +:+ " => `" +:+ kv.1 +:+ "` entry is duplicated")
      | None => None
      end
  end.
Proof.
  clear -Hin Hk. destruct value as [|ty str|members|elements]; simpl in Hin.
  - tauto.
  - destruct Hin as [[= <- <-]|[]]. by destruct Hk.
  - induction members as [|kv rest IH]; simpl in *; [tauto|].
    destruct Hin as [[= _ <-]|Hin]; [lia|]. specialize (IH Hin). lia.
  - apply in_map_iff in Hin as (x & [= <- <-] & _). by destruct Hk.
Qed.

(** The parser, and the name of the configuration file. *)
Context {P : gjson.Parser}.
Context (minioConfigFile : string).

(** [checkDupJSONKeys]: check recursively if a key is duplicated in the
    same json scope. *)
Definition checkDupJSONKeys (json : string) : option error :=
  (* Parse config with gjson library *)
  let config := gjson.Parse json in
  (* Create a fake rootKey since root json doesn't seem to have
     representation in gjson library. *)
  let rootKey := gjson.Literal gjson.String minioConfigFile in
  (* Check if loaded json contains any duplicated keys *)
  doCheckDupJSONKeys rootKey config.

End DupKeys.

(** ** Life cycle of the published store *)

(** Config version *)
Definition serverConfigVersion : string := "23".

(** Constants and collaborators declared elsewhere in the package: the
    default region, the name and the path of the configuration file,
    [quick.Load] and [quick.Save], [ioutil.ReadFile], the validation of
    the notification block, the two parity rules, freshly generated
    credentials and the notification block a new configuration starts
    with (one default entry keyed 1 per target kind). *)
Class Collaborators (notifier : Type) := {
  globalMinioDefaultRegion : string;
  minioConfigFile : string;
  getConfigFile : string;
  quick_Load : string → serverConfig notifier → error + serverConfig notifier;
  quick_Save : string → serverConfig notifier → option error;
  ioutil_ReadFile : string → error + string;
  Validate : option notifier → option error;
  validateRRSParity : Z → Z → option error;
  validateSSParity : Z → Z → option error;
  MustGetNewCredentials : Credentials;
  initialNotifier : notifier
}.

Section Lifecycle.

Context {notifier : Type}.
Context {V : Validity}.
Context {R : MapRange}.
Context {P : gjson.Parser}.
Context {E : Collaborators notifier}.

Local Abbreviation serverConfig := (serverConfig notifier).
Local Abbreviation MState := (MState notifier).
Local Abbreviation M := (M notifier).

(** The process: the pointer [globalServerConfig] ([None] when nil,
    otherwise the object it points to) and the other package-level
    variables. *)
Record Process := mkProcess {
  globalServerConfig : option serverConfig;
  globals : Globals
}.

(** What a call leaves behind: it returns, or [fatalIf] ended the
    process. *)
Inductive Outcome :=
| Returned (err : option error) (p : Process)
| Exited.

(** [Save] config. *)
Definition Save : M (option error) := field (quick_Save getConfigFile).

Definition newServerConfig : serverConfig :=
  {| Version := serverConfigVersion;
     Credential := MustGetNewCredentials;
     Region := globalMinioDefaultRegion;
     Browser := true;
     Domain := "";
     StorageClass := {| Standard := zeroStorageClass; RRS := zeroStorageClass |};
     Notify := Some initialNotifier;
     Bucket := madeMap ∅ |}.

(** The overrides from the environment, as [newConfig] and [loadConfig]
    both apply them to the configuration they are about to publish. *)
Definition envOverrides : M unit := λ st,
  let g := vars st in
  ((* If env is set override the credentials from config file. *)
   (if globalIsEnvCreds g
    then SetCredential (globalActiveCred g);; mret tt else mret tt);;
   (if globalIsEnvBrowser g
    then SetBrowser (globalIsBrowserEnabled g) else mret tt);;
   (if globalIsEnvRegion g
    then SetRegion (globalServerRegion g) else mret tt);;
   (if globalIsEnvDomainName g
    then assign (withDomain (globalDomainName g)) else mret tt);;
   (if globalIsStorageClass g
    then SetStorageClass (globalStandardStorageClass g) (globalRRStorageClass g)
    else mret tt)) st.

(** [newConfig] - initialize a new server config, saves env parameters
    if found, otherwise use default parameters. *)
Definition newConfig (p : Process) : option error * Process :=
  (* Initialize server config. *)
  let st := (envOverrides {| self := newServerConfig; vars := globals p |}).2 in
  (* Save the new config globally. *)
  let st := {| self := self st; vars := withCredCache ∅ (vars st) |} in
  (* Save config into file. *)
  let r := Save st in
  (r.1, {| globalServerConfig := Some (self r.2); globals := vars r.2 |}).

(** [getValidConfig] - returns valid server configuration. *)
Definition getValidConfig (g : Globals) : error + serverConfig :=
  let srvCfg :=
    {| Version := ""; Credential := zeroCredentials;
       Region := globalMinioDefaultRegion; Browser := true; Domain := "";
       StorageClass := {| Standard := zeroStorageClass; RRS := zeroStorageClass |};
       Notify := None; Bucket := nilMap |} in
  let configFile := getConfigFile in
  match quick_Load configFile srvCfg with
  | inl err => inl err
  | inr srvCfg =>
      if decide (Version srvCfg ≠ serverConfigVersion) then
        inl ("configuration version mismatch. Expected: ‘" +:+ serverConfigVersion
             +:+ "’, Got: ‘" +:+ Version srvCfg +:+ "’")
      else
        (* Load config file json and check for duplication json keys *)
        match ioutil_ReadFile configFile with
        | inl err => inl err
        | inr jsonBytes =>
            match checkDupJSONKeys minioConfigFile jsonBytes with
            | Some err => inl err
            | None =>
                (* Error out if global is env credential is not set and
                   config has invalid credential *)
                if negb (globalIsEnvCreds g) && negb (IsValid (Credential srvCfg)) then
                  inl ("invalid credential in config file " +:+ configFile)
                else
                  (* Validate notify field *)
                  match Validate (Notify srvCfg) with
                  | Some err => inl err
                  | None => inr srvCfg
                  end
            end
        end
  end.

(** The assignments [loadConfig] makes to the mirrored variables that
    need no validation, on the published store [s]. *)
Definition mirror (s : serverConfig) (g : Globals) : Globals :=
  let g := if negb (globalIsEnvCreds g)
           then withActiveCred (Credential s) g else g in
  let g := if negb (globalIsEnvBrowser g)
           then withIsBrowserEnabled (Browser s) g else g in
  let g := if negb (globalIsEnvRegion g)
           then withServerRegion (Region s) g else g in
  if negb (globalIsEnvDomainName g)
  then withDomainName (Domain s) g else g.

(** [loadConfig] - loads a new config from disk, overrides params from
    env if found and valid. *)
Definition loadConfig (p : Process) : Outcome :=
  match getValidConfig (globals p) with
  | inl err => Returned (Some err) p
  | inr srvCfg =>
      let st := (envOverrides {| self := srvCfg; vars := globals p |}).2 in
      (* hold the mutex lock before a new config is assigned. *)
      let g := withCredCache ∅ (vars st) in
      let g := mirror (self st) g in
      if negb (globalIsStorageClass g) then
        match GetStorageClass validateRRSParity validateSSParity
                {| self := self st; vars := g |} with
        | None => Exited
        | Some (classes, st') =>
            Returned None
              {| globalServerConfig := Some (self st');
                 globals := withStorageClasses classes.1 classes.2 (vars st') |}
        end
      else
        Returned None {| globalServerConfig := Some (self st); globals := g |}
  end.

End Lifecycle.

Arguments Process : clear implicits.
Arguments Outcome : clear implicits.

(** * Vocabulary of the properties *)

Section Vocabulary.

Context {notifier : Type}.
Context {V : Validity}.
Context {R : MapRange}.

Local Abbreviation serverConfig := (serverConfig notifier).
Local Abbreviation MState := (MState notifier).

(** The fields of the store. *)
Inductive Field :=
| FVersion | FCredential | FRegion | FBrowser | FDomain
| FStorageClass | FNotify | FBucket.

#[global] Instance Field_eq_dec : EqDecision Field.
Proof. solve_decision. Defined.

(** Two stores hold the same value in a field. *)
Definition sameField (f : Field) (s s' : serverConfig) : Prop :=
  match f with
  | FVersion => Version s' = Version s
  | FCredential => Credential s' = Credential s
  | FRegion => Region s' = Region s
  | FBrowser => Browser s' = Browser s
  | FDomain => Domain s' = Domain s
  | FStorageClass => StorageClass s' = StorageClass s
  | FNotify => Notify s' = Notify s
  | FBucket => Bucket s' = Bucket s
  end.

(** A step from [st] to [st'] changed nothing but the listed fields of
    the receiver: every other field and every package-level variable,
    the credential cache among them, is as before. *)
Definition onlyChanged (fs : list Field) (st st' : MState) : Prop :=
  (∀ f, f ∉ fs → sameField f (self st) (self st')) ∧ vars st' = vars st.

(** The credential cache of a state. *)
Definition cacheOf (st : MState) : gmap string Credentials :=
  globalServerCredCache (vars st).

End Vocabulary.

Section ResolverVocabulary.

Context {notifier : Type}.
Context {V : Validity}.
Context {R : MapRange}.

Local Abbreviation MState := (MState notifier).

(** The state with the cache replaced. *)
Definition withCache (c : gmap string Credentials) (st : MState) : MState :=
  {| self := self st; vars := withCredCache c (vars st) |}.

(** The state with the bucket credentials replaced. *)
Definition withBuckets (b : credMap) (st : MState) : MState :=
  {| self := withBucket b (self st); vars := vars st |}.

(** The last resort of the resolver: the scan, with the insertion of
    what it finds into the cache. *)
Definition scanAndCache (st : MState) (key : string) : Credentials * MState :=
  match scanBuckets key (Bucket (self st)) with
  | Some (_, c) => (c, withCache (<[AccessKey c := c]> (cacheOf st)) st)
  | None => (zeroCredentials, st)
  end.

(** The cache holds, under [key], an entry whose access key field is
    [key]. *)
Definition cacheEntry (st : MState) (key : string) (c : Credentials) : Prop :=
  cacheOf st !! key = Some c ∧ AccessKey c = key.

(** The cache answers for [key]: it holds, under [key], a valid entry
    whose access key field is [key]. *)
Definition cacheHit (st : MState) (key : string) (c : Credentials) : Prop :=
  cacheEntry st key c ∧ IsValid c = true.

(** [GetCredentialForKey key] returns [c] from the cache without a scan:
    the cache holds [c] under [key], the call returns [c] and leaves the
    state alone, and it does so whatever the bucket credentials are. *)
Definition servedFromCache (st : MState) (key : string) (c : Credentials) : Prop :=
  cacheOf st !! key = Some c
  ∧ GetCredentialForKey key st = (c, st)
  ∧ ∀ buckets,
      GetCredentialForKey key (withBuckets buckets st) = (c, withBuckets buckets st).

(** The invariant of the cache in the words of the specification: every
    entry is the current root credential or a currently-present bucket
    credential. *)
Definition cacheInvariant (st : MState) : Prop :=
  ∀ k c, cacheOf st !! k = Some c →
    c = Credential (self st) ∨ ∃ b, Bucket (self st) !! b = Some c.

(** The invariant the code keeps: every entry is filed under its own
    access key, and every entry that is a valid credential is a
    currently-present bucket credential. *)
Definition cacheConsistent (st : MState) : Prop :=
  ∀ k c, cacheOf st !! k = Some c →
    AccessKey c = k ∧ (IsValid c = true → ∃ b, Bucket (self st) !! b = Some c).

End ResolverVocabulary.

(** * Concrete stores

    A store with no notification block ([notifier] is [unit]), under the
    plain validity predicate and the listed order of iteration. *)

Definition rootCred : Credentials :=
  {| AccessKey := "rootaccess"; SecretKey := "rootsecret" |}.

Definition photosCred : Credentials :=
  {| AccessKey := "photoskey"; SecretKey := "photossecret" |}.

Definition videosCred : Credentials :=
  {| AccessKey := "videoskey"; SecretKey := "videossecret" |}.

(** An access key without a secret key: not a valid credential. *)
Definition halfCred : Credentials :=
  {| AccessKey := "ab"; SecretKey := "" |}.

Definition quietGlobals : Globals :=
  {| globalServerCredCache := ∅;
     globalIsStorageClass := false;
     globalIsEnvCreds := false;
     globalIsEnvBrowser := false;
     globalIsEnvRegion := false;
     globalIsEnvDomainName := false;
     globalActiveCred := zeroCredentials;
     globalIsBrowserEnabled := false;
     globalServerRegion := "";
     globalDomainName := "";
     globalStandardStorageClass := zeroStorageClass;
     globalRRStorageClass := zeroStorageClass |}.

Definition freshStore : serverConfig unit :=
  {| Version := serverConfigVersion;
     Credential := rootCred;
     Region := "us-east-1";
     Browser := true;
     Domain := "";
     StorageClass := {| Standard := zeroStorageClass; RRS := zeroStorageClass |};
     Notify := None;
     Bucket := madeMap ∅ |}.

(** A freshly published store: no bucket credentials, empty cache. *)
Definition freshState : MState unit :=
  {| self := freshStore; vars := quietGlobals |}.

(** [freshState] after [SetCredential(auth.Credentials{})]: a store
    whose root credential is the zero credential. *)
Definition blankState : MState unit :=
  (SetCredential zeroCredentials freshState).2.

(** [freshState] after [SetCredentialForBucket("photos", halfCred)]. *)
Definition halfState : MState unit :=
  (SetCredentialForBucket "photos" halfCred freshState).2.

(** [halfState] after [SetCredentialForBucket("photos", photosCred)]. *)
Definition staleState : MState unit :=
  (SetCredentialForBucket "photos" photosCred halfState).2.

(** [freshState] after [SetCredentialForBucket("photos", photosCred)]
    and [SetCredentialForBucket("videos", videosCred)]. *)
Definition twoBuckets : MState unit :=
  (SetCredentialForBucket "videos" videosCred
     (SetCredentialForBucket "photos" photosCred freshState).2).2.

(** * Vocabulary of the duplicate-key check *)

Section DupKeysVocabulary.

Context {R : MapRange}.

(** The iterator [doCheckDupJSONKeys] passes to [ForEach], on the pair
    of [keysOcc] and [checkErr]. *)
Definition scopeIterator (k v : gjson.Result)
    (st : gmap string nat * option error) :
    (gmap string nat * option error) * bool :=
  let st' :=
    match decide (gjson.TypeOf k ≠ gjson.Null) with
    | left _ => (countKey st.1 (gjson.StringOf k), doCheckDupJSONKeys k v)
    | right _ => st
    end in
  (st', bool_decide (st'.2 = None)).

(** What [doCheckDupJSONKeys] makes of the state the iteration ends
    in. *)
Definition scopeVerdict (key : gjson.Result)
    (r : gmap string nat * option error) : option error :=
  match r.2 with
  | Some e => Some (gjson.StringOf key +:+ " => " +:+ e)
  | None =>
      match List.find (λ kv : string * nat, bool_decide (1 < kv.2)) (range r.1) with
      | Some kv =>
          Some (gjson.StringOf key +:+ " => `" +:+ kv.1 +:+ "` entry is duplicated")
      | None => None
      end
  end.

(** The verdict on each member of an object, under its own name. *)
Definition memberVerdict (kv : string * gjson.Result) : option error :=
  doCheckDupJSONKeys (gjson.Literal gjson.String kv.1) kv.2.

End DupKeysVocabulary.

(** No object anywhere in the document, inside arrays included, declares
    two members of the same name. *)
Inductive NoDupScopes : gjson.Result → Prop :=
| NoDupScopes_Zero : NoDupScopes gjson.Zero
| NoDupScopes_Literal t str : NoDupScopes (gjson.Literal t str)
| NoDupScopes_Object members :
    NoDup members.*1 →
    Forall (λ kv, NoDupScopes kv.2) members →
    NoDupScopes (gjson.Object members)
| NoDupScopes_Array elements :
    Forall NoDupScopes elements →
    NoDupScopes (gjson.Array elements).

(** No object that is reached from the root through members of objects
    alone declares two members of the same name.  What an array holds
    is not looked at. *)
Inductive NoDupReached : gjson.Result → Prop :=
| NoDupReached_Zero : NoDupReached gjson.Zero
| NoDupReached_Literal t str : NoDupReached (gjson.Literal t str)
| NoDupReached_Object members :
    NoDup members.*1 →
    Forall (λ kv, NoDupReached kv.2) members →
    NoDupReached (gjson.Object members)
| NoDupReached_Array elements : NoDupReached (gjson.Array elements).

(** The documents of the specification, numbers as literals:
    an object [a] with the key [x] twice; *)
Definition docDuplicate : gjson.Result :=
  gjson.Object
    [("a", gjson.Object [("x", gjson.Literal gjson.Number "1");
                         ("x", gjson.Literal gjson.Number "2")])].

(** the key [x] once in each of the objects [a] and [b]; *)
Definition docTwoScopes : gjson.Result :=
  gjson.Object
    [("a", gjson.Object [("x", gjson.Literal gjson.Number "1")]);
     ("b", gjson.Object [("x", gjson.Literal gjson.Number "1")])].

(** and an object with the key [x] twice inside an array [a]. *)
Definition docDuplicateInArray : gjson.Result :=
  gjson.Object
    [("a", gjson.Array
             [gjson.Object [("x", gjson.Literal gjson.Number "1");
                            ("x", gjson.Literal gjson.Number "2")]])].

(** * Vocabulary of the life cycle *)

Section LifecycleVocabulary.

Context {notifier : Type}.
Context {V : Validity}.
Context {R : MapRange}.
Context {P : gjson.Parser}.
Context {E : Collaborators notifier}.

(** The configuration [getValidConfig] hands to [quick.Load]: the zero
    value but for the default region and the enabled browser. *)
Definition unloadedConfig : serverConfig notifier :=
  {| Version := ""; Credential := zeroCredentials;
     Region := globalMinioDefaultRegion; Browser := true; Domain := "";
     StorageClass := {| Standard := zeroStorageClass; RRS := zeroStorageClass |};
     Notify := None; Bucket := nilMap |}.

(** The ways the validation of a reload fails, each with the error it
    fails with, in the order the checks are made: the configuration does
    not load; its version is not the expected one; its text cannot be
    read; the text has a duplicate key; the root credential is invalid
    while the credentials do not come from the environment; the
    notification block does not validate. *)
Inductive ValidationFailure (g : Globals) : error → Prop :=
| LoadFails err :
    quick_Load getConfigFile unloadedConfig = inl err →
    ValidationFailure g err
| VersionMismatch srvCfg :
    quick_Load getConfigFile unloadedConfig = inr srvCfg →
    Version srvCfg ≠ serverConfigVersion →
    ValidationFailure g
      ("configuration version mismatch. Expected: ‘" +:+ serverConfigVersion
       +:+ "’, Got: ‘" +:+ Version srvCfg +:+ "’")
| ReadFails srvCfg err :
    quick_Load getConfigFile unloadedConfig = inr srvCfg →
    Version srvCfg = serverConfigVersion →
    ioutil_ReadFile getConfigFile = inl err →
    ValidationFailure g err
| DuplicateKey srvCfg jsonBytes err :
    quick_Load getConfigFile unloadedConfig = inr srvCfg →
    Version srvCfg = serverConfigVersion →
    ioutil_ReadFile getConfigFile = inr jsonBytes →
    checkDupJSONKeys minioConfigFile jsonBytes = Some err →
    ValidationFailure g err
| InvalidCredential srvCfg jsonBytes :
    quick_Load getConfigFile unloadedConfig = inr srvCfg →
    Version srvCfg = serverConfigVersion →
    ioutil_ReadFile getConfigFile = inr jsonBytes →
    checkDupJSONKeys minioConfigFile jsonBytes = None →
    globalIsEnvCreds g = false →
    IsValid (Credential srvCfg) = false →
    ValidationFailure g ("invalid credential in config file " +:+ getConfigFile)
| NotifyInvalid srvCfg jsonBytes err :
    quick_Load getConfigFile unloadedConfig = inr srvCfg →
    Version srvCfg = serverConfigVersion →
    ioutil_ReadFile getConfigFile = inr jsonBytes →
    checkDupJSONKeys minioConfigFile jsonBytes = None →
    globalIsEnvCreds g = true ∨ IsValid (Credential srvCfg) = true →
    Validate (Notify srvCfg) = Some err →
    ValidationFailure g err.

(** The published store of a process, as the state its methods run
    in. *)
Definition published (p : Process notifier) : option (MState notifier) :=
  s ← globalServerConfig p; Some {| self := s; vars := globals p |}.

End LifecycleVocabulary.

(** A parser that reads the text at hand as the document [doc]. *)
Definition readsAs (doc : gjson.Result) : gjson.Parser :=
  {| gjson.Parse := λ _, doc |}.

(** Collaborators for the concrete stores: the configuration file holds
    a configuration of version 22 with the root credential [rootCred];
    nothing else fails. *)
#[export] Instance oldFile : Collaborators unit :=
  {| globalMinioDefaultRegion := "us-east-1";
     minioConfigFile := "config.json";
     getConfigFile := "/etc/minio/config.json";
     quick_Load := λ _ s, inr {| Version := "22"; Credential := rootCred;
                                 Region := Region s; Browser := Browser s;
                                 Domain := Domain s; StorageClass := StorageClass s;
                                 Notify := Notify s; Bucket := Bucket s |};
     quick_Save := λ _ _, None;
     ioutil_ReadFile := λ _, inr "";
     Validate := λ _, None;
     validateRRSParity := λ _ _, None;
     validateSSParity := λ _ _, None;
     MustGetNewCredentials := rootCred;
     initialNotifier := tt |}.

(** The same collaborators over a configuration file of the current
    version. *)
Definition currentFile : Collaborators unit :=
  {| globalMinioDefaultRegion := "us-east-1";
     minioConfigFile := "config.json";
     getConfigFile := "/etc/minio/config.json";
     quick_Load := λ _ s, inr {| Version := "23"; Credential := rootCred;
                                 Region := Region s; Browser := Browser s;
                                 Domain := Domain s; StorageClass := StorageClass s;
                                 Notify := Notify s; Bucket := Bucket s |};
     quick_Save := λ _ _, None;
     ioutil_ReadFile := λ _, inr "";
     Validate := λ _, None;
     validateRRSParity := λ _ _, None;
     validateSSParity := λ _ _, None;
     MustGetNewCredentials := rootCred;
     initialNotifier := tt |}.

(** The document of that file. *)
Definition docCurrent : gjson.Result :=
  gjson.Object [("version", gjson.Literal gjson.String "23")].

(** A process that has published [twoBuckets]. *)
Definition servingProcess : Process unit :=
  {| globalServerConfig := Some (self twoBuckets); globals := vars twoBuckets |}.

(** The store that file loads to: the file has no bucket member, and
    the map of the store stays nil. *)
Definition loadedStore : serverConfig unit := withBucket nilMap freshStore.

(** The process after it has loaded the file of the current version:
    the loaded store is published, the cache is empty, the effective
    values are mirrored. *)
Definition reloadedProcess : Process unit :=
  {| globalServerConfig := Some loadedStore;
     globals :=
       {| globalServerCredCache := ∅;
          globalIsStorageClass := false;
          globalIsEnvCreds := false;
          globalIsEnvBrowser := false;
          globalIsEnvRegion := false;
          globalIsEnvDomainName := false;
          globalActiveCred := rootCred;
          globalIsBrowserEnabled := true;
          globalServerRegion := "us-east-1";
          globalDomainName := "";
          globalStandardStorageClass := zeroStorageClass;
          globalRRStorageClass := zeroStorageClass |} |}.

(** The published store of [reloadedProcess], as the state its methods
    run in. *)
Definition reloadedState : MState unit :=
  {| self := loadedStore; vars := globals reloadedProcess |}.

(** * Vocabulary of the further properties *)

(** The first check of [GetStorageClass] fails: the reduced-redundancy
    scheme is set and its parity is refused. *)
Definition rrsRefused {notifier : Type} (validateRRS : Z → Z → option error)
    (s : serverConfig notifier) : Prop :=
  Scheme (RRS (StorageClass s)) ≠ ""
  ∧ is_Some (validateRRS (Parity (RRS (StorageClass s)))
                         (Parity (Standard (StorageClass s)))).

(** The second check fails: the standard scheme is set and its parity is
    refused. *)
Definition standardRefused {notifier : Type} (validateSS : Z → Z → option error)
    (s : serverConfig notifier) : Prop :=
  Scheme (Standard (StorageClass s)) ≠ ""
  ∧ is_Some (validateSS (Parity (Standard (StorageClass s)))
                        (Parity (RRS (StorageClass s)))).

(** The object [scope] is found in a document by following the member
    names of [path] from the root. *)
Inductive ScopeAt : gjson.Result → list string → list (string * gjson.Result) → Prop :=
| ScopeAt_here members : ScopeAt (gjson.Object members) [] members
| ScopeAt_member members name v path scope :
    (name, v) ∈ members →
    ScopeAt v path scope →
    ScopeAt (gjson.Object members) (name :: path) scope.

(** The message for the key [name], duplicated in the object at
    [path]. *)
Fixpoint duplicateMessage (path : list string) (name : string) : string :=
  match path with
  | [] => "`" +:+ name +:+ "` entry is duplicated"
  | scope :: path => scope +:+ " => " +:+ duplicateMessage path name
  end.

(** The mirrored variables of [g] hold what the store [s] holds. *)
Definition mirrored {notifier : Type} (s : serverConfig notifier) (g : Globals) : Prop :=
  globalActiveCred g = Credential s
  ∧ globalIsBrowserEnabled g = Browser s
  ∧ globalServerRegion g = Region s
  ∧ globalDomainName g = Domain s
  ∧ globalStandardStorageClass g = Standard (StorageClass s)
  ∧ globalRRStorageClass g = RRS (StorageClass s).

(** The flags that say which values come from the environment are the
    same in [g] and [g']. *)
Definition sameEnvFlags (g g' : Globals) : Prop :=
  globalIsEnvCreds g' = globalIsEnvCreds g
  ∧ globalIsEnvBrowser g' = globalIsEnvBrowser g
  ∧ globalIsEnvRegion g' = globalIsEnvRegion g
  ∧ globalIsEnvDomainName g' = globalIsEnvDomainName g.

(** The store [s] is the store [s0] with the values from the
    environment, as the variables [g] give them, in place of its own:
    the credential, the browser flag, the region, the domain and the
    storage classes, each under its flag; the version, the notification
    block and the bucket credentials are those of [s0]. *)
Definition overriddenBy {notifier : Type} (g : Globals)
    (s0 s : serverConfig notifier) : Prop :=
  Credential s = (if globalIsEnvCreds g then globalActiveCred g else Credential s0)
  ∧ Browser s = (if globalIsEnvBrowser g then globalIsBrowserEnabled g else Browser s0)
  ∧ Region s = (if globalIsEnvRegion g then globalServerRegion g else Region s0)
  ∧ Domain s = (if globalIsEnvDomainName g then globalDomainName g else Domain s0)
  ∧ StorageClass s
    = (if globalIsStorageClass g
       then {| Standard := globalStandardStorageClass g;
               RRS := globalRRStorageClass g |}
       else StorageClass s0)
  ∧ Version s = Version s0
  ∧ Notify s = Notify s0
  ∧ Bucket s = Bucket s0.

(** * Properties *)

(** Indexing a store's map is indexing its entries. *)
Lemma lookup_credMap (m : credMap) (k : string) : m !! k = entries m !! k.
Proof. reflexivity. Qed.

Ltac seeEntries :=
  repeat match goal with
         | |- context [@lookup string Credentials credMap _ ?k ?m] =>
             change (@lookup string Credentials credMap _ k m) with (entries m !! k)
         | H : context [@lookup string Credentials credMap _ ?k ?m] |- _ =>
             change (@lookup string Credentials credMap _ k m) with (entries m !! k) in H
         end.

(** The zero credential is never valid. *)
Lemma IsValid_zero `{V : Validity} : IsValid zeroCredentials = false.
Proof.
  destruct (IsValid zeroCredentials) eqn:E; [|done].
  apply IsValid_nonempty in E as [E _]. by destruct E.
Qed.

(** ** The order of iteration *)

Section RangeFacts.

Context {R : MapRange} {A : Type}.
Implicit Types m : gmap string A.

Lemma elem_of_range m k v : (k, v) ∈ range m ↔ m !! k = Some v.
Proof. rewrite (range_perm A m). apply elem_of_map_to_list. Qed.

Lemma range_empty : range (∅ : gmap string A) = [].
Proof.
  apply Permutation_nil_r. rewrite (range_perm A ∅). by rewrite map_to_list_empty.
Qed.

End RangeFacts.

(** ** The accessors *)

Section AccessorFacts.

Context {notifier : Type}.
Context {V : Validity}.
Context {R : MapRange}.

Local Abbreviation serverConfig := (serverConfig notifier).
Local Abbreviation MState := (MState notifier).

Implicit Types (st : MState) (key bucket : string) (creds : Credentials).

(** C10: each single-field setter changes its named field and nothing
    else.  [SetRegion] changes the region only, [SetBrowser] the browser
    flag only, [SetCredential] the root credential only and returns the
    previous one, [SetStorageClass] the storage-class pair only; the
    version, the domain, the bucket credentials, the notification block,
    the remaining fields and all package-level variables, the credential
    cache included, stay as they were. *)
Theorem setters_change_only_their_field st :
  (∀ region,
     let r := SetRegion region st in
     Region (self r.2) = region ∧ onlyChanged [FRegion] st r.2)
  ∧ (∀ b,
     let r := SetBrowser b st in
     Browser (self r.2) = b ∧ onlyChanged [FBrowser] st r.2)
  ∧ (∀ creds,
     let r := SetCredential creds st in
     r.1 = Credential (self st) ∧ Credential (self r.2) = creds
     ∧ onlyChanged [FCredential] st r.2)
  ∧ (∀ standardClass rrsClass,
     let r := SetStorageClass standardClass rrsClass st in
     Standard (StorageClass (self r.2)) = standardClass
     ∧ RRS (StorageClass (self r.2)) = rrsClass
     ∧ onlyChanged [FStorageClass] st r.2).
Proof.
  repeat split; try done;
    intros [] Hf; try done; exfalso; apply Hf; set_solver.
Qed.

(** *** The scan of the bucket credentials *)

Lemma scanBuckets_Some key (buckets : credMap) b c :
  scanBuckets key buckets = Some (b, c) →
  buckets !! b = Some c ∧ AccessKey c = key.
Proof.
  unfold scanBuckets. intros [Hin Hk]%find_some.
  apply list_elem_of_In, elem_of_range in Hin.
  by apply bool_decide_eq_true in Hk.
Qed.

Lemma scanBuckets_None key (buckets : credMap) :
  scanBuckets key buckets = None ↔
  ∀ b c, buckets !! b = Some c → AccessKey c ≠ key.
Proof.
  unfold scanBuckets. split.
  - intros Hnone b c Hb Hk.
    apply elem_of_range, list_elem_of_In in Hb.
    apply (find_none _ _ Hnone) in Hb. simpl in Hb.
    by apply bool_decide_eq_false in Hb.
  - intros Hall. destruct (find _ _) as [[b c]|] eqn:E; [|done].
    apply find_some in E as [Hin Hk].
    apply list_elem_of_In, elem_of_range in Hin.
    apply bool_decide_eq_true in Hk. by destruct (Hall b c Hin).
Qed.

Lemma scanBuckets_is_Some key (buckets : credMap) b c :
  buckets !! b = Some c → AccessKey c = key →
  is_Some (scanBuckets key buckets).
Proof.
  intros Hb Hk. destruct (scanBuckets key buckets) eqn:E; [done|].
  rewrite scanBuckets_None in E. by destruct (E b c Hb).
Qed.

(** *** [GetCredentialForBucket] *)

(** What [GetCredentialForBucket] computes: the override when present
    and valid, the root credential otherwise; the state is only read. *)
Lemma GetCredentialForBucket_unfold st bucket :
  GetCredentialForBucket bucket st =
  (match Bucket (self st) !! bucket with
   | Some cred => if IsValid cred then cred else Credential (self st)
   | None => Credential (self st)
   end, st).
Proof.
  unfold GetCredentialForBucket, index, field, mbind, M_bind, mret, M_ret.
  seeEntries. destruct (entries (Bucket (self st)) !! bucket) as [cred|]; simpl.
  - by destruct (IsValid cred).
  - by rewrite IsValid_zero.
Qed.

(** C7 (amended): [GetCredentialForBucket] only reads the state; it
    returns the override of the bucket when that is present and valid
    and the root credential otherwise; what it returns is valid whenever
    the root credential is.  (With an invalid root credential and no
    valid override it returns that invalid root credential.) *)
Theorem GetCredentialForBucket_override_or_root st bucket :
  let r := GetCredentialForBucket bucket st in
  r.2 = st
  ∧ (∀ cred, Bucket (self st) !! bucket = Some cred → IsValid cred = true →
       r.1 = cred)
  ∧ ((∀ cred, Bucket (self st) !! bucket = Some cred → IsValid cred = false) →
       r.1 = Credential (self st))
  ∧ (IsValid (Credential (self st)) = true → IsValid r.1 = true).
Proof.
  rewrite GetCredentialForBucket_unfold. simpl.
  destruct (Bucket (self st) !! bucket) as [cred|] eqn:Hb.
  - destruct (IsValid cred) eqn:Hv; repeat split; try done.
    + intros c [= <-] _. done.
    + intros Hall. specialize (Hall cred eq_refl). congruence.
    + intros c [= <-] ?. congruence.
  - repeat split; try done.
Qed.

(** *** [GetBucketForKey] *)

(** C9: [GetBucketForKey] only reads the state.  For the access key of
    the root credential it returns the empty string, whatever the bucket
    credentials are; for any other key it returns a bucket whose
    credential has that access key when there is one, and the empty
    string when there is none. *)
Theorem GetBucketForKey_spec st key :
  let r := GetBucketForKey key st in
  r.2 = st
  ∧ (key = AccessKey (Credential (self st)) → r.1 = "")
  ∧ (key ≠ AccessKey (Credential (self st)) →
     (∃ b c, Bucket (self st) !! b = Some c ∧ AccessKey c = key) →
     ∃ c, Bucket (self st) !! r.1 = Some c ∧ AccessKey c = key)
  ∧ (key ≠ AccessKey (Credential (self st)) →
     (∀ b c, Bucket (self st) !! b = Some c → AccessKey c ≠ key) →
     r.1 = "").
Proof.
  unfold GetBucketForKey, field, mbind, M_bind, mret, M_ret. simpl.
  destruct (decide (key = AccessKey (Credential (self st)))) as [Hroot|Hroot].
  { repeat split; done. }
  destruct (scanBuckets key (Bucket (self st))) as [[b c]|] eqn:Hscan; simpl.
  - apply scanBuckets_Some in Hscan as [Hb Hk].
    repeat split; try done.
    + intros _ _. by exists c.
    + intros _ Hall. by destruct (Hall b c Hb).
  - repeat split; try done.
    intros _ (b & c & Hb & Hk). rewrite scanBuckets_None in Hscan.
    by destruct (Hscan b c Hb).
Qed.

(** *** [SetCredentialForBucket] *)

(** On the empty bucket name it sets the root credential. *)
Lemma SetCredentialForBucket_root st creds :
  SetCredentialForBucket "" creds st
  = (Some (Credential (self st)),
     {| self := withCredential creds (self st); vars := vars st |}).
Proof. done. Qed.

(** On a non-empty bucket name and a store whose map is nil it panics
    at the assignment, before anything is written. *)
Lemma SetCredentialForBucket_nil st bucket creds :
  bucket ≠ "" →
  Bucket (self st) = nilMap →
  SetCredentialForBucket bucket creds st = (None, st).
Proof.
  intros Hne Hnil. unfold SetCredentialForBucket.
  destruct (decide (bucket = "")) as [|_]; [done|].
  unfold field, assign, cacheDelete, cacheStore, index,
    mbind, M_bind, mret, M_ret. simpl.
  rewrite Hnil. simpl. rewrite lookup_empty. simpl.
  rewrite IsValid_zero. by rewrite Hnil.
Qed.

(** The steps of [SetCredentialForBucket] on a non-empty bucket name and
    a store whose map has been made. *)
Lemma SetCredentialForBucket_unfold st bucket creds :
  bucket ≠ "" →
  Bucket (self st) ≠ nilMap →
  SetCredentialForBucket bucket creds st =
  let prev := index (Bucket (self st)) bucket in
  let cache := if IsValid prev then delete (AccessKey prev) (cacheOf st)
               else cacheOf st in
  (Some (if IsValid prev then prev else Credential (self st)),
   withCache (<[AccessKey creds := creds]> cache)
     (withBuckets (madeMap (<[bucket := creds]> (entries (Bucket (self st))))) st)).
Proof.
  intros Hne Hmade. unfold SetCredentialForBucket.
  destruct (decide (bucket = "")) as [|_]; [done|].
  unfold field, assign, cacheDelete, cacheStore, cacheOf, withCache, withBuckets,
    mbind, M_bind, mret, M_ret. simpl.
  destruct (Bucket (self st)) as [|made] eqn:Hb; [done|]. simpl.
  destruct (IsValid (index made bucket)); simpl; by rewrite Hb.
Qed.

(** C3: the code at the failing input.  On a store whose bucket map is
    nil, as the store [loadConfig] publishes from a file with no bucket
    member is, [SetCredentialForBucket] with a non-empty bucket name
    panics at the assignment to the map: nothing is returned, the new
    credential is written neither to the bucket credentials nor to the
    cache, and the state is as before. *)
Theorem SetCredentialForBucket_on_nil_map st bucket creds :
  bucket ≠ "" →
  Bucket (self st) = nilMap →
  let r := SetCredentialForBucket bucket creds st in
  r.1 = None
  ∧ r.2 = st
  ∧ Bucket (self r.2) !! bucket = None.
Proof.
  intros Hne Hnil. rewrite SetCredentialForBucket_nil by done. simpl.
  split; [done|]. split; [done|]. by rewrite Hnil.
Qed.


(** *** [GetCredentialForKey] *)

Lemma GetCredentialForKey_unfold st key :
  GetCredentialForKey key st =
  if decide (AccessKey (Credential (self st)) = key) then (Credential (self st), st)
  else match cacheOf st !! key with
       | Some c => if IsValid c && bool_decide (AccessKey c = key)
                   then (c, st) else scanAndCache st key
       | None => scanAndCache st key
       end.
Proof.
  unfold GetCredentialForKey, scanAndCache, field, cacheIndex, cacheStore,
    cacheOf, withCache, index, mbind, M_bind, mret, M_ret. simpl.
  destruct (decide _) as [|_]; [done|].
  destruct (globalServerCredCache (vars st) !! key) as [c|]; simpl.
  - destruct (IsValid c && bool_decide (AccessKey c = key)); [done|].
    by destruct (scanBuckets key (Bucket (self st))) as [[??]|].
  - rewrite IsValid_zero. simpl.
    by destruct (scanBuckets key (Bucket (self st))) as [[??]|].
Qed.

Lemma scanBuckets_at_first key (buckets : credMap)
    before b c after :
  range buckets = (before ++ (b, c) :: after)%list →
  Forall (λ entry : string * Credentials, AccessKey entry.2 ≠ key) before →
  AccessKey c = key →
  scanBuckets key buckets = Some (b, c).
Proof.
  unfold scanBuckets. intros -> Hall Hk.
  induction Hall as [|e l He _ IH]; simpl.
  - by rewrite bool_decide_eq_true_2.
  - by rewrite bool_decide_eq_false_2.
Qed.

(** Past the root credential and the cache, the resolver is the scan. *)
Lemma GetCredentialForKey_miss st key :
  AccessKey (Credential (self st)) ≠ key →
  (∀ c, ¬ cacheHit st key c) →
  GetCredentialForKey key st = scanAndCache st key.
Proof.
  intros Hroot Hmiss. rewrite GetCredentialForKey_unfold.
  destruct (decide _) as [|_]; [done|].
  destruct (cacheOf st !! key) as [c|] eqn:Hc; [|done].
  destruct (IsValid c) eqn:Hv; [|done]. simpl.
  case_bool_decide as Hk; [|done].
  by destruct (Hmiss c).
Qed.

(** C1 (amended): [GetCredentialForKey] resolves in this order and stops
    at the first match, and it always returns a credential.  For the
    access key of the root credential it returns the root credential and
    leaves the state alone, whatever the cache holds.  Otherwise, if the
    cache holds under the key a valid entry whose access key field is
    the key, it returns that entry and leaves the state alone.
    Otherwise it scans the bucket credentials and, at the first entry in
    the order of iteration whose access key is the key, stores that
    credential in the cache under its own access key and returns it;
    there is such an entry as soon as some bucket has a credential with
    that access key.  If the scan finds none it returns the zero
    credential and leaves the state alone. *)
Theorem GetCredentialForKey_resolution st key :
  let root := Credential (self st) in
  let r := GetCredentialForKey key st in
  (AccessKey root = key → r = (root, st))
  ∧ (AccessKey root ≠ key →
     ∀ c, cacheHit st key c → r = (c, st))
  ∧ (AccessKey root ≠ key → (∀ c, ¬ cacheHit st key c) →
     ∀ before b c after,
       range (Bucket (self st)) = (before ++ (b, c) :: after)%list →
       Forall (λ entry : string * Credentials, AccessKey entry.2 ≠ key) before →
       AccessKey c = key →
       r = (c, withCache (<[AccessKey c := c]> (cacheOf st)) st))
  ∧ (AccessKey root ≠ key → (∀ c, ¬ cacheHit st key c) →
     (∃ b c, Bucket (self st) !! b = Some c ∧ AccessKey c = key) →
     ∃ b c, Bucket (self st) !! b = Some c ∧ AccessKey c = key
            ∧ r = (c, withCache (<[AccessKey c := c]> (cacheOf st)) st))
  ∧ (AccessKey root ≠ key → (∀ c, ¬ cacheHit st key c) →
     (∀ b c, Bucket (self st) !! b = Some c → AccessKey c ≠ key) →
     r = (zeroCredentials, st)).
Proof.
  simpl. split; [|split; [|split; [|split]]].
  - intros Hroot. rewrite GetCredentialForKey_unfold. by rewrite decide_True.
  - intros Hroot c [[Hc Hk] Hv]. rewrite GetCredentialForKey_unfold.
    rewrite decide_False, Hc, Hv by done. simpl.
    by rewrite bool_decide_eq_true_2.
  - intros Hroot Hmiss before b c after Hrange Hall Hk.
    rewrite GetCredentialForKey_miss by done. unfold scanAndCache.
    by rewrite (scanBuckets_at_first _ _ _ _ _ _ Hrange Hall Hk).
  - intros Hroot Hmiss (b & c & Hb & Hk).
    rewrite GetCredentialForKey_miss by done. unfold scanAndCache.
    destruct (scanBuckets_is_Some _ _ _ _ Hb Hk) as [[b' c'] Hscan].
    rewrite Hscan. apply scanBuckets_Some in Hscan as [Hb' Hk'].
    by exists b', c'.
  - intros Hroot Hmiss Hall.
    rewrite GetCredentialForKey_miss by done. unfold scanAndCache.
    by rewrite (proj2 (scanBuckets_None key (Bucket (self st))) Hall).
Qed.

(** *** Set, then resolve *)

(** On a non-empty bucket name the call returns exactly on the stores
    whose map has been made. *)
Lemma SetCredentialForBucket_returns st bucket creds :
  bucket ≠ "" →
  is_Some (SetCredentialForBucket bucket creds st).1 ↔ Bucket (self st) ≠ nilMap.
Proof.
  intros Hne. split.
  - intros [prev Hret] Hnil. by rewrite SetCredentialForBucket_nil in Hret.
  - intros Hmade. by rewrite SetCredentialForBucket_unfold.
Qed.

(** C8 (amended): for a non-empty bucket name [b1] and a valid
    credential [C] whose access key is not the root credential's,
    whenever [SetCredentialForBucket b1 C] returns, the resolver
    afterwards returns [C] for [C]'s access key from the cache, whatever
    the bucket credentials are, and [GetCredentialForBucket b1] returns
    [C]. *)
Theorem set_then_resolve st b1 C :
  b1 ≠ "" →
  IsValid C = true →
  AccessKey C ≠ AccessKey (Credential (self st)) →
  is_Some (SetCredentialForBucket b1 C st).1 →
  let st' := (SetCredentialForBucket b1 C st).2 in
  servedFromCache st' (AccessKey C) C
  ∧ GetCredentialForBucket b1 st' = (C, st').
Proof.
  intros Hb HC Hroot Hmade%SetCredentialForBucket_returns; [|done].
  rewrite SetCredentialForBucket_unfold by done. simpl.
  set (cache := if IsValid _ then _ else _).
  split; [split; [|split]|].
  - unfold cacheOf, withCache. simpl. apply lookup_insert_eq.
  - rewrite GetCredentialForKey_unfold. simpl.
    destruct (decide _) as [E|_]; [by destruct Hroot|].
    unfold cacheOf. simpl. rewrite lookup_insert_eq, HC. simpl.
    by rewrite bool_decide_eq_true_2.
  - intros buckets. rewrite GetCredentialForKey_unfold. simpl.
    destruct (decide _) as [E|_]; [by destruct Hroot|].
    unfold cacheOf. simpl. rewrite lookup_insert_eq, HC. simpl.
    by rewrite bool_decide_eq_true_2.
  - rewrite GetCredentialForBucket_unfold. simpl. seeEntries. simpl.
    by rewrite lookup_insert_eq, HC.
Qed.

(** *** The cache under the operations that write it *)

(** A call that panics leaves the state as it was. *)
Lemma SetCredentialForBucket_panic st bucket creds :
  (SetCredentialForBucket bucket creds st).1 = None →
  (SetCredentialForBucket bucket creds st).2 = st.
Proof.
  destruct (decide (bucket = "")) as [->|Hne]; [done|].
  destruct (Bucket (self st)) as [|made] eqn:Hb.
  - by rewrite SetCredentialForBucket_nil.
  - by rewrite SetCredentialForBucket_unfold by (done || by rewrite Hb).
Qed.

Lemma SetCredentialForBucket_consistent st bucket creds :
  cacheConsistent st →
  cacheConsistent (SetCredentialForBucket bucket creds st).2.
Proof.
  intros Hinv. destruct (decide (bucket = "")) as [->|Hne].
  { rewrite SetCredentialForBucket_root. exact Hinv. }
  destruct (Bucket (self st)) as [|made] eqn:Hmade.
  { by rewrite SetCredentialForBucket_nil. }
  rewrite SetCredentialForBucket_unfold by (done || by rewrite Hmade). simpl.
  intros k c. unfold cacheOf, withCache, withBuckets. simpl.
  destruct (decide (AccessKey creds = k)) as [<-|Hk].
  { rewrite lookup_insert_eq. intros [= <-]. split; [done|].
    intros _. exists bucket. seeEntries. simpl. apply lookup_insert_eq. }
  rewrite lookup_insert_ne by done. intros Hc.
  assert (globalServerCredCache (vars st) !! k = Some c
          ∧ (IsValid (index (Bucket (self st)) bucket) = true →
             k ≠ AccessKey (index (Bucket (self st)) bucket))) as [Hold Hevict].
  { destruct (IsValid (index (Bucket (self st)) bucket)); [|done].
    apply lookup_delete_Some in Hc as [Hd ?]. split; [done|]. by intros _ ->. }
  destruct (Hinv k c Hold) as [Hkey Hpresent]. split; [done|].
  intros Hv. destruct (Hpresent Hv) as [b Hb]. seeEntries. simpl.
  destruct (decide (b = bucket)) as [->|Hbne].
  - exfalso. unfold index in Hevict. rewrite Hb in Hevict. simpl in Hevict.
    by apply (Hevict Hv).
  - exists b. seeEntries. simpl. by rewrite lookup_insert_ne.
Qed.

Lemma GetCredentialForKey_consistent st key :
  cacheConsistent st →
  cacheConsistent (GetCredentialForKey key st).2.
Proof.
  intros Hinv. rewrite GetCredentialForKey_unfold.
  assert (cacheConsistent (scanAndCache st key).2) as Hscan.
  { unfold scanAndCache.
    destruct (scanBuckets key (Bucket (self st))) as [[b c]|] eqn:E; [|done].
    apply scanBuckets_Some in E as [Hb _]. simpl.
    intros k c'. unfold cacheOf, withCache. simpl.
    destruct (decide (AccessKey c = k)) as [<-|Hk].
    - rewrite lookup_insert_eq. intros [= <-]. split; [done|]. by exists b.
    - rewrite lookup_insert_ne by done. apply Hinv. }
  destruct (decide _); [done|].
  destruct (cacheOf st !! key) as [c|]; [|done].
  by destruct (IsValid c && bool_decide (AccessKey c = key)).
Qed.

(** A state whose cache is empty is consistent. *)
Lemma empty_cache_consistent st : cacheOf st = ∅ → cacheConsistent st.
Proof. intros Hempty k c. by rewrite Hempty, lookup_empty. Qed.

End AccessorFacts.

(** ** The accessors on concrete stores *)

(** C7, counterexample: on a store whose root credential is the zero
    credential, [GetCredentialForBucket] returns an invalid
    credential. *)
Lemma GetCredentialForBucket_returns_invalid :
  IsValid (GetCredentialForBucket "photos" blankState).1 = false.
Proof. vm_compute. reflexivity. Qed.

Lemma GetCredentialForBucket_override_or_root_witness :
  (GetCredentialForBucket "photos" twoBuckets).1 = photosCred
  ∧ (GetCredentialForBucket "music" twoBuckets).1 = rootCred
  ∧ IsValid (GetCredentialForBucket "music" twoBuckets).1 = true.
Proof.
  destruct (GetCredentialForBucket_override_or_root twoBuckets "photos")
    as (_ & Hoverride & _).
  destruct (GetCredentialForBucket_override_or_root twoBuckets "music")
    as (_ & _ & Hroot & Hvalid).
  split; [apply Hoverride; vm_compute; reflexivity|].
  split; [apply Hroot; intros cred H; vm_compute in H; discriminate H|].
  apply Hvalid. vm_compute. reflexivity.
Defined.

Lemma GetBucketForKey_spec_witness :
  (GetBucketForKey "rootaccess" twoBuckets).1 = ""
  ∧ (∃ c, Bucket (self twoBuckets) !! (GetBucketForKey "videoskey" twoBuckets).1 = Some c
          ∧ AccessKey c = "videoskey")
  ∧ (GetBucketForKey "nobody" freshState).1 = "".
Proof.
  destruct (GetBucketForKey_spec twoBuckets "rootaccess") as (_ & Hroot & _).
  destruct (GetBucketForKey_spec twoBuckets "videoskey") as (_ & _ & Hfound & _).
  destruct (GetBucketForKey_spec freshState "nobody") as (_ & _ & _ & Hnone).
  split; [apply Hroot; reflexivity|].
  split.
  - apply Hfound; [vm_compute; discriminate|].
    exists "videos", videosCred. split; vm_compute; reflexivity.
  - apply Hnone; [vm_compute; discriminate|].
    intros b c H. vm_compute in H. discriminate H.
Defined.

Lemma SetCredentialForBucket_on_nil_map_witness :
  loadConfig (P := readsAs docCurrent) (E := currentFile) servingProcess
  = Returned None reloadedProcess
  ∧ published reloadedProcess = Some reloadedState
  ∧ (SetCredentialForBucket "photos" photosCred reloadedState).1 = None
  ∧ (SetCredentialForBucket "photos" photosCred reloadedState).2 = reloadedState
  ∧ Bucket (self (SetCredentialForBucket "photos" photosCred reloadedState).2)
      !! "photos" = None.
Proof.
  split; [vm_compute; reflexivity|]. split; [reflexivity|].
  apply (SetCredentialForBucket_on_nil_map reloadedState "photos" photosCred).
  - discriminate.
  - reflexivity.
Defined.


(** C1, counterexample: in [staleState] the cache holds, under the key
    ab, an entry whose access key field is ab, the root credential has
    another access key, and [GetCredentialForKey] does not return that
    entry: the entry is not a valid credential, the scan finds no bucket
    with that key, and the zero credential comes back. *)
Lemma GetCredentialForKey_skips_invalid_entry :
  AccessKey (Credential (self staleState)) ≠ "ab"
  ∧ cacheEntry staleState "ab" halfCred
  ∧ (GetCredentialForKey "ab" staleState).1 = zeroCredentials
  ∧ (GetCredentialForKey "ab" staleState).1 ≠ halfCred.
Proof.
  split; [vm_compute; discriminate|].
  split; [split; vm_compute; reflexivity|].
  split; [vm_compute; reflexivity|].
  vm_compute. discriminate.
Qed.

Lemma GetCredentialForKey_resolution_witness :
  GetCredentialForKey "rootaccess" twoBuckets = (rootCred, twoBuckets)
  ∧ GetCredentialForKey "videoskey" twoBuckets = (videosCred, twoBuckets)
  ∧ GetCredentialForKey "photoskey" (withCache ∅ (withBuckets (madeMap {["photos" := photosCred]}) freshState))
    = (photosCred, withCache (<["photoskey" := photosCred]> ∅)
                     (withCache ∅ (withBuckets (madeMap {["photos" := photosCred]}) freshState)))
  ∧ GetCredentialForKey "nobody" freshState = (zeroCredentials, freshState).
Proof.
  destruct (GetCredentialForKey_resolution twoBuckets "rootaccess") as (Hroot & _).
  destruct (GetCredentialForKey_resolution twoBuckets "videoskey") as (_ & Hhit & _).
  destruct (GetCredentialForKey_resolution
              (withCache ∅ (withBuckets (madeMap {["photos" := photosCred]}) freshState))
              "photoskey") as (_ & _ & Hscan & _).
  destruct (GetCredentialForKey_resolution freshState "nobody")
    as (_ & _ & _ & _ & Hnone).
  split; [apply Hroot; reflexivity|].
  split; [apply Hhit; [vm_compute; discriminate|repeat split; vm_compute; reflexivity]|].
  split.
  - apply (Hscan ltac:(vm_compute; discriminate)
                 ltac:(intros c [[H _] _]; vm_compute in H; discriminate H)
                 [] "photos" photosCred []);
      [vm_compute; reflexivity | constructor | reflexivity].
  - apply Hnone; [vm_compute; discriminate| |].
    + intros c [[H _] _]. vm_compute in H. discriminate H.
    + intros b c H. vm_compute in H. discriminate H.
Defined.

(** C8, counterexample: with the empty bucket name the credential
    becomes the root credential and the cache is left alone, so the
    resolver does not return it from the cache. *)
Lemma set_root_not_served_from_cache :
  IsValid photosCred = true
  ∧ AccessKey photosCred ≠ AccessKey (Credential (self freshState))
  ∧ cacheOf (SetCredentialForBucket "" photosCred freshState).2
      !! AccessKey photosCred = None
  ∧ ¬ servedFromCache (SetCredentialForBucket "" photosCred freshState).2
        (AccessKey photosCred) photosCred.
Proof.
  split; [vm_compute; reflexivity|].
  split; [vm_compute; discriminate|].
  split; [vm_compute; reflexivity|].
  intros [H _]. vm_compute in H. discriminate H.
Qed.

Lemma set_then_resolve_witness :
  let st' := (SetCredentialForBucket "photos" photosCred freshState).2 in
  servedFromCache st' "photoskey" photosCred
  ∧ GetCredentialForBucket "photos" st' = (photosCred, st').
Proof.
  apply (set_then_resolve freshState "photos" photosCred).
  - discriminate.
  - vm_compute. reflexivity.
  - vm_compute. discriminate.
  - vm_compute. by eexists.
Defined.

(** C2, counterexample: [halfState] satisfies the invariant as the
    specification words it; after [SetCredentialForBucket] overwrites
    the invalid credential of the bucket, its cache entry is still
    there, and it is neither the root credential nor the credential of
    any bucket. *)
Lemma overwrite_leaves_stale_entry :
  cacheInvariant halfState
  ∧ ¬ cacheInvariant (SetCredentialForBucket "photos" photosCred halfState).2.
Proof.
  split.
  - intros k c Hc. right. exists "photos".
    change (cacheOf halfState) with (<["ab" := halfCred]> (∅ : gmap string Credentials)) in Hc.
    apply lookup_insert_Some in Hc as [[_ <-]|[_ Hc]]; [|by rewrite lookup_empty in Hc].
    vm_compute. reflexivity.
  - intros Hinv.
    destruct (Hinv "ab" halfCred) as [Hroot|[b Hb]].
    + vm_compute. reflexivity.
    + vm_compute in Hroot. discriminate Hroot.
    + change (Bucket (self (SetCredentialForBucket "photos" photosCred halfState).2))
        with (madeMap (<["photos" := photosCred]>
                (<["photos" := halfCred]> (∅ : gmap string Credentials)))) in Hb.
      rewrite lookup_credMap in Hb. simpl in Hb.
      apply lookup_insert_Some in Hb as [[_ Hb]|[Hne Hb]]; [discriminate Hb|].
      apply lookup_insert_Some in Hb as [[Heq _]|[_ Hb]]; [by destruct Hne|].
      by rewrite lookup_empty in Hb.
Qed.

(** ** The duplicate-key check *)

Section DupKeysFacts.

Context {R : MapRange}.
Context {P : gjson.Parser}.

Implicit Types (key value k v : gjson.Result) (keysOcc : gmap string nat).

(** An iterator that ignores the evidence it is given iterates as
    [forEach] does. *)
Lemma each_forEach {S : Type} its
    (f : gjson.Result → gjson.Result → S → S * bool) st :
  gjson.each its (λ k v _, f k v) st = gjson.forEach its f st.
Proof.
  revert st. induction its as [|kv rest IH]; intros st; simpl; [done|].
  destruct (f kv.1 kv.2 st) as [st' [|]]; simpl; [apply IH|done].
Qed.

(** The defining equation of [doCheckDupJSONKeys]. *)
Lemma doCheckDupJSONKeys_eq key value :
  doCheckDupJSONKeys key value =
  scopeVerdict key (gjson.forEach (gjson.items value) scopeIterator (∅, None)).
Proof.
  rewrite <- (each_forEach (gjson.items value) scopeIterator).
  rewrite doCheckDupJSONKeys_equation_1. reflexivity.
Qed.

(** A scope with no keys: the zero value, literals and arrays. *)
Lemma scopeVerdict_empty key : scopeVerdict key (∅, None) = None.
Proof. unfold scopeVerdict. simpl. by rewrite range_empty. Qed.

Lemma doCheckDupJSONKeys_Zero key : doCheckDupJSONKeys key gjson.Zero = None.
Proof. rewrite doCheckDupJSONKeys_eq. apply scopeVerdict_empty. Qed.

Lemma doCheckDupJSONKeys_Literal key t str :
  doCheckDupJSONKeys key (gjson.Literal t str) = None.
Proof. rewrite doCheckDupJSONKeys_eq. apply scopeVerdict_empty. Qed.

(** The elements of an array come with the zero key: the iterator skips
    every one of them. *)
Lemma forEach_Array elements st :
  st.2 = None →
  gjson.forEach (gjson.items (gjson.Array elements)) scopeIterator st = st.
Proof.
  intros Hst. simpl. induction elements as [|v rest IH]; simpl; [done|].
  by rewrite Hst.
Qed.

Lemma doCheckDupJSONKeys_Array key elements :
  doCheckDupJSONKeys key (gjson.Array elements) = None.
Proof.
  rewrite doCheckDupJSONKeys_eq, forEach_Array by done.
  apply scopeVerdict_empty.
Qed.

(** *** The members of an object *)

(** On a member of an object the iterator counts the name and checks
    the value. *)
Lemma scopeIterator_member name v keysOcc checkErr :
  scopeIterator (gjson.Literal gjson.String name) v (keysOcc, checkErr)
  = ((countKey keysOcc name, memberVerdict (name, v)),
     bool_decide (memberVerdict (name, v) = None)).
Proof. reflexivity. Qed.

(** While no member fails, the iteration counts every name. *)
Lemma forEach_Object_ok members keysOcc :
  Forall (λ kv, memberVerdict kv = None) members →
  gjson.forEach (gjson.items (gjson.Object members)) scopeIterator (keysOcc, None)
  = (foldl countKey keysOcc members.*1, None).
Proof.
  intros Hall. revert keysOcc. cbn [gjson.items].
  induction Hall as [|[name v] rest Hkv _ IH]; intros keysOcc;
    cbn [map gjson.forEach fst snd fmap list_fmap foldl]; [done|].
  rewrite scopeIterator_member, Hkv. cbn [fst snd bool_decide]. apply IH.
Qed.

(** At the first member that fails, the iteration stops with the error
    of that member. *)
Lemma forEach_Object_err before kv after e keysOcc :
  Forall (λ kv, memberVerdict kv = None) before →
  memberVerdict kv = Some e →
  (gjson.forEach (gjson.items (gjson.Object (before ++ kv :: after)%list))
     scopeIterator (keysOcc, None)).2 = Some e.
Proof.
  intros Hall He. revert keysOcc. cbn [gjson.items]. destruct kv as [name v].
  induction Hall as [|[name' v'] rest Hkv _ IH]; intros keysOcc;
    cbn [map gjson.forEach fst snd app].
  - by rewrite scopeIterator_member, He.
  - rewrite scopeIterator_member, Hkv. cbn [fst snd]. apply IH.
Qed.

(** Either no member fails, or there is a first one that does. *)
Lemma members_split (members : list (string * gjson.Result)) :
  Forall (λ kv, memberVerdict kv = None) members
  ∨ ∃ before kv after e,
      members = (before ++ kv :: after)%list
      ∧ Forall (λ kv, memberVerdict kv = None) before
      ∧ memberVerdict kv = Some e.
Proof.
  induction members as [|kv rest IH]; [by left|].
  destruct (memberVerdict kv) as [e|] eqn:He.
  { right. by exists [], kv, rest, e. }
  destruct IH as [Hall|(before & kv' & after & e & -> & Hall & He')].
  - left. by constructor.
  - right. exists (kv :: before), kv', after, e. split; [done|]. split; [|done].
    by constructor.
Qed.

(** *** The count of the names *)

Lemma foldl_countKey_lookup names keysOcc name :
  default 0 (foldl countKey keysOcc names !! name)
  = default 0 (keysOcc !! name) + count_occ String.eq_dec names name.
Proof.
  revert keysOcc. induction names as [|n names IH]; intros keysOcc; simpl; [lia|].
  rewrite IH. unfold countKey. destruct (String.eq_dec n name) as [->|Hne].
  - rewrite lookup_insert_eq. simpl. lia.
  - by rewrite lookup_insert_ne.
Qed.

(** With no error found, the verdict is an error exactly when some name
    was counted more than once. *)
Lemma scopeVerdict_None key keysOcc :
  scopeVerdict key (keysOcc, None) = None
  ↔ ∀ name : string, (default 0 (keysOcc !! name) ≤ 1)%nat.
Proof.
  unfold scopeVerdict. simpl. split.
  - intros Hv name. destruct (keysOcc !! name) as [n|] eqn:Hn; simpl; [|lia].
    destruct (find _ _) as [kv|] eqn:Hfind; [done|].
    apply elem_of_range, list_elem_of_In in Hn.
    apply (find_none _ _ Hfind) in Hn. simpl in Hn.
    apply bool_decide_eq_false in Hn. lia.
  - intros Hall. destruct (find _ _) as [[name n]|] eqn:Hfind; [|done].
    apply find_some in Hfind as [Hin Hn]. simpl in Hn.
    apply list_elem_of_In, elem_of_range in Hin.
    apply bool_decide_eq_true in Hn. specialize (Hall name).
    rewrite Hin in Hall. simpl in Hall. lia.
Qed.

Lemma counted_once_iff_NoDup (names : list string) :
  (∀ name : string, (default 0 (foldl countKey ∅ names !! name) ≤ 1)%nat) ↔ NoDup names.
Proof.
  rewrite NoDup_ListNoDup, (NoDup_count_occ String.eq_dec).
  apply forall_proper. intros name.
  by rewrite foldl_countKey_lookup, lookup_empty.
Qed.

(** An object passes exactly when each of its members passes and its
    own names are distinct. *)
Lemma doCheckDupJSONKeys_Object_None key members :
  doCheckDupJSONKeys key (gjson.Object members) = None
  ↔ Forall (λ kv, memberVerdict kv = None) members ∧ NoDup members.*1.
Proof.
  rewrite doCheckDupJSONKeys_eq.
  destruct (members_split members)
    as [Hall|(before & kv & after & e & -> & Hall & He)].
  - rewrite forEach_Object_ok by done.
    rewrite scopeVerdict_None, counted_once_iff_NoDup. tauto.
  - pose proof (forEach_Object_err before kv after e ∅ Hall He) as Herr.
    unfold scopeVerdict. rewrite Herr. split; [done|].
    intros [Hfa _]. apply Forall_app in Hfa as [_ Hfa].
    apply Forall_cons in Hfa as [Hkv _]. congruence.
Qed.

(** The error of a member comes back under the name of the scope. *)
Lemma doCheckDupJSONKeys_Object_member key before kv after e :
  Forall (λ kv, memberVerdict kv = None) before →
  memberVerdict kv = Some e →
  doCheckDupJSONKeys key (gjson.Object (before ++ kv :: after)%list)
  = Some (gjson.StringOf key +:+ " => " +:+ e).
Proof.
  intros Hall He. rewrite doCheckDupJSONKeys_eq. unfold scopeVerdict.
  by rewrite (forEach_Object_err before kv after e ∅ Hall He).
Qed.

(** An object whose members pass and whose names are not distinct fails
    with the name of a key that occurs more than once. *)
Lemma doCheckDupJSONKeys_Object_dup key members :
  Forall (λ kv, memberVerdict kv = None) members →
  ¬ NoDup members.*1 →
  ∃ name,
    (1 < count_occ String.eq_dec members.*1 name)%nat
    ∧ doCheckDupJSONKeys key (gjson.Object members)
      = Some (gjson.StringOf key +:+ " => `" +:+ name +:+ "` entry is duplicated").
Proof.
  intros Hall Hdup. rewrite doCheckDupJSONKeys_eq, forEach_Object_ok by done.
  destruct (scopeVerdict key (foldl countKey ∅ members.*1, None)) as [e|] eqn:Hv.
  - unfold scopeVerdict in Hv. simpl in Hv.
    destruct (find _ _) as [[name n]|] eqn:Hfind; [|done].
    apply find_some in Hfind as [Hin Hn]. simpl in Hn, Hv.
    apply list_elem_of_In, elem_of_range in Hin.
    apply bool_decide_eq_true in Hn. exists name. split; [|congruence].
    pose proof (foldl_countKey_lookup members.*1 ∅ name) as Hcount.
    rewrite Hin, lookup_empty in Hcount. simpl in Hcount. lia.
  - rewrite scopeVerdict_None, counted_once_iff_NoDup in Hv. done.
Qed.

(** *** Which documents pass *)

Lemma size_member (kv : string * gjson.Result) members :
  kv ∈ members → (gjson.size kv.2 < gjson.size (gjson.Object members))%nat.
Proof.
  simpl. induction 1 as [kv rest|kv kv' rest _ IH]; simpl in *; lia.
Qed.

(** A document passes exactly when the objects reached through members
    of objects have distinct names. *)
Lemma doCheckDupJSONKeys_None_iff key value :
  doCheckDupJSONKeys key value = None ↔ NoDupReached value.
Proof.
  remember (gjson.size value) as n eqn:Hn. revert key value Hn.
  induction n as [n IH] using lt_wf_ind. intros key value ->.
  destruct value as [|t str|members|elements].
  - rewrite doCheckDupJSONKeys_Zero. split; [constructor|done].
  - rewrite doCheckDupJSONKeys_Literal. split; [constructor|done].
  - rewrite doCheckDupJSONKeys_Object_None.
    assert (Forall (λ kv, memberVerdict kv = None) members
            ↔ Forall (λ kv, NoDupReached kv.2) members) as ->.
    { rewrite !Forall_forall. apply forall_proper. intros kv.
      split; intros H Hin; specialize (H Hin);
        by apply (IH _ (size_member kv members Hin)
                    (gjson.Literal gjson.String kv.1) kv.2 eq_refl). }
    split; [intros [? ?]; by constructor|by inversion 1].
  - rewrite doCheckDupJSONKeys_Array. split; [constructor|done].
Qed.

Lemma NoDupScopes_NoDupReached value : NoDupScopes value → NoDupReached value.
Proof.
  remember (gjson.size value) as n eqn:Hn. revert value Hn.
  induction n as [n IH] using lt_wf_ind. intros value ->.
  destruct 1 as [|t str|members Hnd Hall|elements Hall]; constructor; [done|].
  rewrite Forall_forall in Hall |- *. intros kv Hin.
  by apply (IH _ (size_member kv members Hin) kv.2 eq_refl), Hall.
Qed.

(** C5: the check is local to a scope.  It passes on every document in
    which no object declares two members of the same name; it passes on
    the document with the key x once in each of the objects a and b; and
    on the document whose object a declares the key x twice it fails,
    naming the key x under the scope a. *)
Theorem checkDupJSONKeys_scope_local (minioConfigFile json : string) :
  (NoDupScopes (gjson.Parse json) →
     checkDupJSONKeys minioConfigFile json = None)
  ∧ (gjson.Parse json = docTwoScopes →
     checkDupJSONKeys minioConfigFile json = None)
  ∧ (gjson.Parse json = docDuplicate →
     checkDupJSONKeys minioConfigFile json
     = Some (minioConfigFile +:+ " => a => `x` entry is duplicated")).
Proof.
  assert (NoDupScopes (gjson.Parse json) →
          checkDupJSONKeys minioConfigFile json = None) as Hpass.
  { intros Hnd. apply doCheckDupJSONKeys_None_iff.
    by apply NoDupScopes_NoDupReached. }
  split; [exact Hpass|]. split.
  - intros Hdoc. apply Hpass. rewrite Hdoc. unfold docTwoScopes.
    repeat first [apply NoDupScopes_Object | apply NoDupScopes_Literal
                 | apply Forall_cons_2 | apply Forall_nil_2
                 | apply NoDup_cons_2 | apply NoDup_nil_2 | set_solver].
  - intros Hdoc. unfold checkDupJSONKeys. rewrite Hdoc. unfold docDuplicate.
    set (inner := [("x", gjson.Literal gjson.Number "1");
                   ("x", gjson.Literal gjson.Number "2")]).
    pose proof (doCheckDupJSONKeys_Object_member
                  (gjson.Literal gjson.String minioConfigFile)
                  [] ("a", gjson.Object inner) []
                  "a => `x` entry is duplicated" (Forall_nil_2 _)) as Houter.
    apply Houter. clear Houter. unfold memberVerdict. cbn [fst snd].
    destruct (doCheckDupJSONKeys_Object_dup (gjson.Literal gjson.String "a") inner)
      as (name & Hcount & ->).
    + repeat constructor; apply doCheckDupJSONKeys_Literal.
    + intros Hnd. apply NoDup_cons in Hnd as [Hnd _]. set_solver.
    + destruct (decide (name = "x")) as [->|Hne]; [done|].
      assert (count_occ String.eq_dec inner.*1 name = 0) as Hzero.
      { apply count_occ_not_In. simpl. intros [?|[?|[]]]; congruence. }
      lia.
Qed.

(** X21: what [checkDupJSONKeys] computes.  It returns no error exactly
    when every object reached from the root through members of objects
    alone has distinct names; on an array [doCheckDupJSONKeys] returns
    no error whatever the elements are, for the iterator is handed a
    key of type [Null] with each of them and recurses under
    [k.Type != gjson.Null] only. *)
Theorem checkDupJSONKeys_skips_arrays (minioConfigFile : string) :
  (∀ json, checkDupJSONKeys minioConfigFile json = None
           ↔ NoDupReached (gjson.Parse json))
  ∧ (∀ key elements, doCheckDupJSONKeys key (gjson.Array elements) = None).
Proof.
  split.
  - intros json. apply doCheckDupJSONKeys_None_iff.
  - apply doCheckDupJSONKeys_Array.
Qed.

End DupKeysFacts.

(** C6: the code at the failing input.  In the document
    [{a: [{x: 1, x: 2}]}] an object inside an array declares the key x
    twice, so that the document has a scope with two members of one
    name, and [checkDupJSONKeys] returns no error for it. *)
Lemma duplicate_in_array_passes :
  ¬ NoDupScopes docDuplicateInArray
  ∧ checkDupJSONKeys (P := readsAs docDuplicateInArray)
      "config.json" "{a: [{x: 1, x: 2}]}" = None.
Proof.
  split; [|vm_compute; reflexivity].
  intros H. inversion H as [| |members _ Hall|]; subst.
  apply Forall_cons in Hall as [Harr _].
  inversion Harr as [| | |elements Hel]; subst.
  apply Forall_cons in Hel as [Hobj _].
  inversion Hobj as [| |members Hnd _|]; subst.
  apply NoDup_cons in Hnd as [Hnd _]. set_solver.
Qed.

Lemma checkDupJSONKeys_scope_local_witness :
  checkDupJSONKeys (P := readsAs docTwoScopes)
    "config.json" "{a: {x: 1}, b: {x: 1}}" = None
  ∧ checkDupJSONKeys (P := readsAs docDuplicate)
      "config.json" "{a: {x: 1, x: 2}}"
    = Some "config.json => a => `x` entry is duplicated"
  ∧ checkDupJSONKeys
      (P := readsAs (gjson.Object
                       [("version", gjson.Literal gjson.String "23");
                        ("region", gjson.Literal gjson.String "us-east-1")]))
      "config.json" "{version: 23, region: us-east-1}" = None.
Proof.
  destruct (checkDupJSONKeys_scope_local (P := readsAs docTwoScopes)
              "config.json" "{a: {x: 1}, b: {x: 1}}") as (_ & Htwo & _).
  destruct (checkDupJSONKeys_scope_local (P := readsAs docDuplicate)
              "config.json" "{a: {x: 1, x: 2}}") as (_ & _ & Hdup).
  destruct (checkDupJSONKeys_scope_local
              (P := readsAs (gjson.Object
                        [("version", gjson.Literal gjson.String "23");
                         ("region", gjson.Literal gjson.String "us-east-1")]))
              "config.json" "{version: 23, region: us-east-1}") as (Hpass & _).
  split; [by apply Htwo|]. split; [by apply Hdup|].
  apply Hpass. constructor.
  - simpl. by apply (bool_decide_unpack _).
  - repeat constructor.
Defined.

(** ** Load and publish *)

Section LifecycleFacts.

Context {notifier : Type}.
Context {V : Validity}.
Context {R : MapRange}.
Context {P : gjson.Parser}.
Context {E : Collaborators notifier}.

Implicit Types (p : Process notifier) (g : Globals) (st : MState notifier).

(** [getValidConfig] fails exactly in the ways listed, with the error
    listed. *)
Lemma getValidConfig_inl g err :
  getValidConfig g = inl err ↔ ValidationFailure g err.
Proof.
  unfold getValidConfig. fold (@unloadedConfig notifier E). split.
  - destruct (quick_Load _ _) as [e|srvCfg] eqn:Hload.
    { intros [= <-]. by apply LoadFails. }
    destruct (decide (Version srvCfg ≠ serverConfigVersion)) as [Hv|Hv%dec_stable].
    { intros [= <-]. by eapply VersionMismatch. }
    destruct (ioutil_ReadFile _) as [e|jsonBytes] eqn:Hread.
    { intros [= <-]. by eapply ReadFails. }
    destruct (checkDupJSONKeys _ _) as [e|] eqn:Hdup.
    { intros [= <-]. by eapply DuplicateKey. }
    destruct (globalIsEnvCreds g) eqn:Henv, (IsValid (Credential srvCfg)) eqn:Hvalid;
      simpl; try (intros [= <-]; by eapply InvalidCredential);
      (destruct (Validate _) as [e|] eqn:Hnotify; [|done]);
      intros [= <-]; eapply NotifyInvalid; eauto.
  - destruct 1 as [e Hload|srvCfg Hload Hv|srvCfg e Hload Hv Hread
                  |srvCfg jsonBytes e Hload Hv Hread Hdup
                  |srvCfg jsonBytes Hload Hv Hread Hdup Henv Hvalid
                  |srvCfg jsonBytes e Hload Hv Hread Hdup Hcred Hnotify];
      rewrite Hload; [done|..].
    + by rewrite decide_True.
    + rewrite decide_False by (by intros ?). by rewrite Hread.
    + rewrite decide_False by (by intros ?). by rewrite Hread, Hdup.
    + rewrite decide_False by (by intros ?). by rewrite Hread, Hdup, Henv, Hvalid.
    + rewrite decide_False by (by intros ?). rewrite Hread, Hdup, Hnotify.
      destruct Hcred as [-> | ->]; [done|]. by rewrite andb_false_r.
Qed.

(** C4: when the validation of a reload fails, for whichever of the
    listed reasons, [loadConfig] returns the error of the validation as
    it is and changes nothing: the published store, the credential
    cache and the mirrored variables are those of before.  It returns an
    error in no other case. *)
Theorem loadConfig_failure_changes_nothing p :
  (∀ err, ValidationFailure (globals p) err →
     getValidConfig (globals p) = inl err
     ∧ loadConfig p = Returned (Some err) p)
  ∧ (∀ err p', loadConfig p = Returned (Some err) p' →
     p' = p ∧ ValidationFailure (globals p) err).
Proof.
  split.
  - intros err Hfail%getValidConfig_inl. split; [done|].
    unfold loadConfig. by rewrite Hfail.
  - intros err p'. unfold loadConfig.
    destruct (getValidConfig (globals p)) as [e|srvCfg] eqn:Hvalid.
    + intros [= <- <-]. split; [done|]. by apply getValidConfig_inl.
    + destruct (negb _); [|done]. by destruct (GetStorageClass _ _ _) as [[? ?]|].
Qed.

(** *** The cache after a store is published *)

Lemma mirror_cache (s : serverConfig notifier) g :
  globalServerCredCache (mirror s g) = globalServerCredCache g.
Proof. unfold mirror. by repeat (destruct (negb _); simpl). Qed.

Lemma GetStorageClass_cache st classes st' :
  GetStorageClass validateRRSParity validateSSParity st = Some (classes, st') →
  cacheOf st' = cacheOf st.
Proof.
  unfold GetStorageClass. intros H.
  apply bind_Some in H as (st1 & H1 & H).
  apply bind_Some in H as (st2 & H2 & H).
  injection H as _ <-.
  assert (cacheOf st1 = cacheOf st) as <-.
  { destruct (decide _) as [_|_]; [|by injection H1 as <-].
    destruct (validateRRSParity _ _); [discriminate H1|by injection H1 as <-]. }
  clear H1. destruct (decide _) as [_|_]; [|by injection H2 as <-].
  destruct (validateSSParity _ _); [discriminate H2|by injection H2 as <-].
Qed.

Lemma loadConfig_success p p' :
  loadConfig p = Returned None p' →
  ∃ st, published p' = Some st ∧ cacheOf st = ∅.
Proof.
  unfold loadConfig. destruct (getValidConfig (globals p)) as [e|srvCfg]; [done|].
  destruct (negb _).
  - destruct (GetStorageClass _ _ _) as [[classes st']|] eqn:Hsc; [|done].
    intros [= <-]. eexists. split; [reflexivity|].
    apply GetStorageClass_cache in Hsc. unfold cacheOf in *. simpl in *.
    rewrite Hsc. apply mirror_cache.
  - intros [= <-]. eexists. split; [reflexivity|].
    unfold cacheOf. simpl. apply mirror_cache.
Qed.

Lemma newConfig_success p :
  ∃ st, published (newConfig p).2 = Some st ∧ cacheOf st = ∅.
Proof. eexists. split; reflexivity. Qed.

(** C2 (amended): every operation that writes the cache keeps it
    consistent, in this sense: every entry is filed under its own access
    key, and every entry that is a valid credential is the credential of
    some bucket at present.  A call of [SetCredentialForBucket] that
    returns preserves this, [GetCredentialForKey] preserves it, and the
    store that [loadConfig] or [newConfig] publishes starts with an
    empty cache.  (An entry that is not a valid credential can stay
    behind after its bucket has been overwritten: only a valid previous
    credential is evicted.) *)
Theorem cache_stays_consistent :
  (∀ st bucket creds,
     cacheConsistent st →
     is_Some (SetCredentialForBucket bucket creds st).1 →
     cacheConsistent (SetCredentialForBucket bucket creds st).2)
  ∧ (∀ st key,
     cacheConsistent st →
     cacheConsistent (GetCredentialForKey key st).2)
  ∧ (∀ p p',
     loadConfig p = Returned None p' →
     ∃ st, published p' = Some st ∧ cacheOf st = ∅ ∧ cacheConsistent st)
  ∧ (∀ p,
     ∃ st, published (newConfig p).2 = Some st ∧ cacheOf st = ∅ ∧ cacheConsistent st).
Proof.
  split.
  { intros st bucket creds Hinv _. by apply SetCredentialForBucket_consistent. }
  split; [apply GetCredentialForKey_consistent|].
  split.
  - intros p p' (st & Hpub & Hcache)%loadConfig_success.
    exists st. eauto using empty_cache_consistent.
  - intros p. destruct (newConfig_success p) as (st & Hpub & Hcache).
    exists st. eauto using empty_cache_consistent.
Qed.

End LifecycleFacts.

Lemma loadConfig_failure_changes_nothing_witness :
  loadConfig (P := readsAs gjson.Zero) servingProcess
  = Returned
      (Some ("configuration version mismatch. Expected: ‘" +:+ "23"
             +:+ "’, Got: ‘" +:+ "22" +:+ "’"))
      servingProcess.
Proof.
  destruct (loadConfig_failure_changes_nothing (P := readsAs gjson.Zero)
              servingProcess) as [Hfail _].
  pose (srvCfg := {| Version := "22"; Credential := rootCred;
                     Region := "us-east-1"; Browser := true; Domain := "";
                     StorageClass := {| Standard := zeroStorageClass;
                                        RRS := zeroStorageClass |};
                     Notify := None; Bucket := nilMap |} : serverConfig unit).
  assert (Version srvCfg ≠ serverConfigVersion) as Hversion.
  { vm_compute. intros H. discriminate H. }
  exact (proj2 (Hfail _ (VersionMismatch _ srvCfg eq_refl Hversion))).
Defined.

Lemma cache_stays_consistent_witness :
  cacheConsistent (SetCredentialForBucket "photos" photosCred freshState).2
  ∧ cacheConsistent (GetCredentialForKey "photoskey" twoBuckets).2
  ∧ ∃ st, published reloadedProcess = Some st ∧ cacheOf st = ∅
          ∧ cacheConsistent st.
Proof.
  destruct (cache_stays_consistent (P := readsAs docCurrent) (E := currentFile))
    as (Hset & Hget & Hload & _).
  assert (cacheConsistent freshState) as Hfresh.
  { intros k c H. vm_compute in H. discriminate H. }
  assert (cacheConsistent twoBuckets) as Htwo.
  { unfold twoBuckets.
    apply (SetCredentialForBucket_consistent (V := nonEmptyValidity)).
    by apply (SetCredentialForBucket_consistent (V := nonEmptyValidity)). }
  split.
  { apply (Hset freshState "photos" photosCred Hfresh). vm_compute. by eexists. }
  split; [by apply Hget|].
  apply (Hload servingProcess). vm_compute. reflexivity.
Defined.

(** * Further properties *)

(** ** The accessors, composed *)

Section FurtherAccessorFacts.

Context {notifier : Type}.
Context {V : Validity}.
Context {R : MapRange}.

Local Abbreviation MState := (MState notifier).

Implicit Types (st : MState) (key bucket : string) (creds : Credentials).

(** X1: with the empty bucket name [SetCredentialForBucket] is the
    setter of the root credential: it returns the previous root
    credential, leaves the bucket credentials, the cache and every other
    variable alone, and the resolver then answers the access key of the
    new credential with it, from the store, without touching the
    state. *)
Theorem SetCredentialForBucket_empty_sets_root st creds :
  let r := SetCredentialForBucket "" creds st in
  r.1 = Some (Credential (self st))
  ∧ Credential (self r.2) = creds
  ∧ onlyChanged [FCredential] st r.2
  ∧ GetCredentialForKey (AccessKey creds) r.2 = (creds, r.2).
Proof.
  simpl. split; [done|]. split; [done|]. split.
  - split; [|done]. intros [] Hf; try done. exfalso. apply Hf. set_solver.
  - rewrite GetCredentialForKey_unfold. simpl. by rewrite decide_True.
Qed.

(** X2: overwriting a valid bucket credential with one of another access
    key removes the old access key from the cache; when no other bucket
    has a credential with the old access key, and it is not the root
    credential's, the resolver answers it with the zero credential from
    then on. *)
Theorem overwrite_forgets_previous st bucket prev creds :
  bucket ≠ "" →
  Bucket (self st) !! bucket = Some prev →
  IsValid prev = true →
  AccessKey prev ≠ AccessKey creds →
  let r := SetCredentialForBucket bucket creds st in
  r.1 = Some prev
  ∧ cacheOf r.2 !! AccessKey prev = None
  ∧ (AccessKey prev ≠ AccessKey (Credential (self st)) →
     (∀ b c, b ≠ bucket → Bucket (self st) !! b = Some c →
             AccessKey c ≠ AccessKey prev) →
     GetCredentialForKey (AccessKey prev) r.2 = (zeroCredentials, r.2)).
Proof.
  intros Hne Hb Hv Hk.
  assert (Bucket (self st) ≠ nilMap) as Hmade.
  { intros Hnil. by rewrite Hnil in Hb. }
  rewrite SetCredentialForBucket_unfold by done.
  rewrite lookup_credMap in Hb.
  unfold index. seeEntries. rewrite Hb. simpl. rewrite Hv.
  assert (<[AccessKey creds:=creds]> (delete (AccessKey prev) (cacheOf st))
            !! AccessKey prev = None) as Hgone.
  { rewrite lookup_insert_ne by done. apply lookup_delete_eq. }
  split; [done|]. split; [exact Hgone|].
  intros Hroot Hothers. rewrite GetCredentialForKey_unfold. simpl.
  rewrite decide_False by (by intros ?).
  unfold cacheOf at 1. simpl. rewrite Hgone.
  unfold scanAndCache. simpl.
  rewrite (proj2 (scanBuckets_None _ _)); [done|].
  intros b c Hbc. rewrite lookup_credMap in Hbc. simpl in Hbc.
  destruct (decide (b = bucket)) as [->|Hbne].
  - rewrite lookup_insert_eq in Hbc. injection Hbc as <-. by intros ?.
  - rewrite lookup_insert_ne in Hbc by done. by apply (Hothers b).
Qed.

(** X3: the resolver answers for the key it is asked: what it returns
    is the zero credential or a credential with that access key.  It
    never changes the store, writes the cache at no other key than the
    one asked for, and leaves the other variables alone. *)
Theorem GetCredentialForKey_answers_the_key st key :
  let r := GetCredentialForKey key st in
  (r.1 = zeroCredentials ∨ AccessKey r.1 = key)
  ∧ self r.2 = self st
  ∧ (∀ k, k ≠ key → cacheOf r.2 !! k = cacheOf st !! k)
  ∧ vars r.2 = withCredCache (cacheOf r.2) (vars st).
Proof.
  simpl. rewrite GetCredentialForKey_unfold.
  assert (vars st = withCredCache (cacheOf st) (vars st)) as Hvars.
  { by destruct st as [s []]. }
  assert (let r := scanAndCache st key in
          (r.1 = zeroCredentials ∨ AccessKey r.1 = key)
          ∧ self r.2 = self st
          ∧ (∀ k, k ≠ key → cacheOf r.2 !! k = cacheOf st !! k)
          ∧ vars r.2 = withCredCache (cacheOf r.2) (vars st)) as Hscan.
  { unfold scanAndCache.
    destruct (scanBuckets key (Bucket (self st))) as [[b c]|] eqn:E; simpl.
    - apply scanBuckets_Some in E as [_ Hk]. split; [by right|].
      split; [done|]. split; [|done].
      intros k Hne. unfold cacheOf. simpl. rewrite lookup_insert_ne; congruence.
    - split; [by left|]. done. }
  destruct (decide _) as [Hroot|Hroot]; [by split; [right|]|].
  destruct (cacheOf st !! key) as [c|] eqn:Hc; [|exact Hscan].
  destruct (IsValid c && bool_decide (AccessKey c = key)) eqn:Hhit; [|exact Hscan].
  apply andb_prop in Hhit as [_ Hk%bool_decide_eq_true].
  by split; [right|].
Qed.

(** X4: while the cache is consistent, a valid credential the resolver
    returns is the root credential or the credential some bucket has at
    present. *)
Theorem GetCredentialForKey_returns_current st key :
  cacheConsistent st →
  let c := (GetCredentialForKey key st).1 in
  IsValid c = true →
  c = Credential (self st) ∨ ∃ b, Bucket (self st) !! b = Some c.
Proof.
  intros Hinv. simpl. rewrite GetCredentialForKey_unfold.
  assert (IsValid (scanAndCache st key).1 = true →
          ∃ b, Bucket (self st) !! b = Some (scanAndCache st key).1) as Hscan.
  { unfold scanAndCache.
    destruct (scanBuckets key (Bucket (self st))) as [[b c]|] eqn:E; simpl.
    - apply scanBuckets_Some in E as [Hb _]. by exists b.
    - by rewrite IsValid_zero. }
  destruct (decide _) as [Hroot|Hroot]; [by left|].
  destruct (cacheOf st !! key) as [c|] eqn:Hc; [|by right; apply Hscan].
  destruct (IsValid c && bool_decide (AccessKey c = key)) eqn:Hhit;
    [|by right; apply Hscan].
  simpl. intros Hv. right. by apply (Hinv key c Hc).
Qed.

(** X5: once the resolver has returned a valid credential for a key, it
    returns the same credential for that key again, from the store or
    from the cache, without changing the state, in whatever order the
    bucket credentials would be iterated the second time. *)
Theorem GetCredentialForKey_again (R2 : MapRange) st key :
  let r := GetCredentialForKey key st in
  IsValid r.1 = true →
  GetCredentialForKey (R := R2) key r.2 = r.
Proof.
  simpl. rewrite (GetCredentialForKey_unfold st).
  destruct (decide (AccessKey (Credential (self st)) = key)) as [Hroot|Hroot].
  { intros _. rewrite GetCredentialForKey_unfold. simpl. by rewrite decide_True. }
  assert (IsValid (scanAndCache st key).1 = true →
          GetCredentialForKey (R := R2) key (scanAndCache st key).2
          = scanAndCache st key) as Hscan.
  { unfold scanAndCache.
    destruct (scanBuckets key (Bucket (self st))) as [[b c]|] eqn:E; simpl.
    - apply scanBuckets_Some in E as [_ Hk]. intros Hv.
      rewrite GetCredentialForKey_unfold. simpl.
      rewrite decide_False by done. unfold cacheOf at 1. simpl.
      rewrite Hk, lookup_insert_eq, Hv. simpl.
      by rewrite bool_decide_eq_true_2.
    - by rewrite IsValid_zero. }
  destruct (cacheOf st !! key) as [c|] eqn:Hc; [|exact Hscan].
  destruct (IsValid c && bool_decide (AccessKey c = key)) eqn:Hhit; [|exact Hscan].
  intros _. rewrite GetCredentialForKey_unfold. simpl.
  by rewrite decide_False, Hc, Hhit.
Qed.

(** X6: the cache does not change what the resolver answers.  While the
    cache is consistent and no two buckets have different credentials
    with the same access key, the resolver returns the credential it
    would return with an empty cache, in whatever orders the bucket
    credentials are iterated. *)
Theorem GetCredentialForKey_cache_transparent (R2 : MapRange) st key :
  cacheConsistent st →
  (∀ b1 b2 c1 c2,
     Bucket (self st) !! b1 = Some c1 → Bucket (self st) !! b2 = Some c2 →
     AccessKey c1 = AccessKey c2 → c1 = c2) →
  (GetCredentialForKey key st).1
  = (GetCredentialForKey (R := R2) key (withCache ∅ st)).1.
Proof.
  intros Hinv Huniq.
  rewrite (GetCredentialForKey_unfold st),
    (GetCredentialForKey_unfold (R := R2) (withCache ∅ st)). simpl.
  destruct (decide _) as [Hroot|Hroot]; [done|].
  unfold cacheOf at 2. simpl. rewrite lookup_empty.
  assert (∀ c b, Bucket (self st) !! b = Some c → AccessKey c = key →
            (scanAndCache (R := R2) (withCache ∅ st) key).1 = c) as Hfound.
  { intros c b Hb Hk. unfold scanAndCache. simpl.
    destruct (scanBuckets_is_Some (R := R2) _ _ _ _ Hb Hk) as [[b' c'] E].
    rewrite E. simpl. apply scanBuckets_Some in E as [Hb' Hk'].
    apply (Huniq b' b); congruence. }
  assert ((scanAndCache st key).1
          = (scanAndCache (R := R2) (withCache ∅ st) key).1) as Hscan.
  { unfold scanAndCache at 1.
    destruct (scanBuckets key (Bucket (self st))) as [[b c]|] eqn:E; simpl.
    - apply scanBuckets_Some in E as [Hb Hk]. symmetry. by apply (Hfound c b).
    - unfold scanAndCache. simpl. rewrite scanBuckets_None in E.
      by rewrite (proj2 (scanBuckets_None (R := R2) _ _) E). }
  destruct (cacheOf st !! key) as [c|] eqn:Hc; [|exact Hscan].
  destruct (IsValid c && bool_decide (AccessKey c = key)) eqn:Hhit; [|exact Hscan].
  apply andb_prop in Hhit as [Hv Hk%bool_decide_eq_true]. simpl.
  destruct (Hinv key c Hc) as [_ Hpresent].
  destruct (Hpresent Hv) as [b Hb]. symmetry. by apply (Hfound c b).
Qed.

(** X7: a call of [SetCredentialForBucket] that returns, having set the
    credential of one bucket, has changed the credential of no other
    bucket. *)
Theorem SetCredentialForBucket_other_buckets st bucket creds other :
  bucket ≠ "" →
  other ≠ bucket →
  is_Some (SetCredentialForBucket bucket creds st).1 →
  (GetCredentialForBucket other (SetCredentialForBucket bucket creds st).2).1
  = (GetCredentialForBucket other st).1.
Proof.
  intros Hne Hother Hmade%SetCredentialForBucket_returns; [|done].
  rewrite SetCredentialForBucket_unfold by done.
  rewrite !GetCredentialForBucket_unfold. simpl.
  rewrite !lookup_credMap. simpl.
  by rewrite lookup_insert_ne.
Qed.

(** What [GetBucketForKey] computes. *)
Lemma GetBucketForKey_unfold st key :
  GetBucketForKey key st =
  (if decide (key = AccessKey (Credential (self st))) then ""
   else match scanBuckets key (Bucket (self st)) with
        | Some (b, _) => b
        | None => ""
        end, st).
Proof.
  unfold GetBucketForKey, field, mbind, M_bind, mret, M_ret. simpl.
  destruct (decide _); [done|].
  by destruct (scanBuckets key (Bucket (self st))) as [[??]|].
Qed.

(** X8: after a call of [SetCredentialForBucket] has returned, having
    set a credential for a bucket, [GetBucketForKey] finds that bucket
    under the access key of the credential, provided the key is not the
    root credential's and no other bucket has a credential with it. *)
Theorem SetCredentialForBucket_then_GetBucketForKey st bucket creds :
  bucket ≠ "" →
  AccessKey creds ≠ AccessKey (Credential (self st)) →
  (∀ b c, b ≠ bucket → Bucket (self st) !! b = Some c →
          AccessKey c ≠ AccessKey creds) →
  is_Some (SetCredentialForBucket bucket creds st).1 →
  (GetBucketForKey (AccessKey creds)
     (SetCredentialForBucket bucket creds st).2).1 = bucket.
Proof.
  intros Hne Hroot Hothers Hmade%SetCredentialForBucket_returns; [|done].
  rewrite GetBucketForKey_unfold.
  rewrite SetCredentialForBucket_unfold by done. simpl.
  rewrite decide_False by done.
  destruct (scanBuckets_is_Some (AccessKey creds)
              (madeMap (<[bucket:=creds]> (entries (Bucket (self st)))))
              bucket creds)
    as [[b c] E]; [apply lookup_insert_eq|done|].
  rewrite E. apply scanBuckets_Some in E as [Hb Hk].
  rewrite lookup_credMap in Hb. simpl in Hb.
  destruct (decide (b = bucket)) as [->|Hbne]; [done|].
  rewrite lookup_insert_ne in Hb by done. by destruct (Hothers b c).
Qed.

(** *** [GetStorageClass] *)

Section StorageClassFacts.

Context (validateRRS validateSS : Z → Z → option error).

Lemma GetStorageClass_None st :
  GetStorageClass validateRRS validateSS st = None
  ↔ rrsRefused validateRRS (self st) ∨ standardRefused validateSS (self st).
Proof.
  unfold GetStorageClass, rrsRefused, standardRefused.
  destruct (decide (Scheme (RRS (StorageClass (self st))) ≠ "")) as [Hr|Hr];
    [destruct (validateRRS _ _) as [e|] eqn:Er|]; simpl.
  - split; [intros _; left; eauto|done].
  - destruct (decide (Scheme (Standard (StorageClass (self st))) ≠ "")) as [Hs|Hs];
      [destruct (validateSS _ _) as [e|] eqn:Es|]; simpl.
    + split; [intros _; right; eauto|done].
    + split; [done|]. intros [[_ [? ?]]|[_ [? ?]]]; congruence.
    + split; [done|]. intros [[_ [? ?]]|[? _]]; [congruence|done].
  - destruct (decide (Scheme (Standard (StorageClass (self st))) ≠ "")) as [Hs|Hs];
      [destruct (validateSS _ _) as [e|] eqn:Es|]; simpl.
    + split; [intros _; right; eauto|done].
    + split; [done|]. intros [[? _]|[_ [? ?]]]; [done|congruence].
    + split; [done|]. intros [[? _]|[? _]]; done.
Qed.

Lemma GetStorageClass_Some st classes st' :
  GetStorageClass validateRRS validateSS st = Some (classes, st') →
  classes = (Standard (StorageClass (self st)), RRS (StorageClass (self st)))
  ∧ self st' = self st
  ∧ vars st'
    = (if bool_decide (Scheme (RRS (StorageClass (self st))) ≠ ""
                       ∨ Scheme (Standard (StorageClass (self st))) ≠ "")
       then withIsStorageClass true (vars st) else vars st).
Proof.
  unfold GetStorageClass.
  destruct (decide (Scheme (RRS (StorageClass (self st))) ≠ "")) as [Hr|Hr];
    [destruct (validateRRS _ _) as [e|]; [done|]|]; simpl;
    (destruct (decide (Scheme (Standard (StorageClass (self st))) ≠ "")) as [Hs|Hs];
     [destruct (validateSS _ _) as [e|]; [done|]|]); simpl;
    intros [= <- <-]; (split; [done|]); (split; [done|]); simpl.
  - rewrite bool_decide_eq_true_2 by tauto. by destruct (vars st).
  - by rewrite bool_decide_eq_true_2 by tauto.
  - by rewrite bool_decide_eq_true_2 by tauto.
  - by rewrite bool_decide_eq_false_2 by tauto.
Qed.

(** X9: [GetStorageClass] ends the process exactly when a scheme that is
    set has a parity its rule refuses.  Otherwise it returns the stored
    pair, leaves the store alone and, when at least one scheme is set,
    raises the flag [globalIsStorageClass]; it changes no other
    variable. *)
Theorem GetStorageClass_spec st :
  (GetStorageClass validateRRS validateSS st = None
   ↔ rrsRefused validateRRS (self st) ∨ standardRefused validateSS (self st))
  ∧ (∀ classes st',
       GetStorageClass validateRRS validateSS st = Some (classes, st') →
       classes = (Standard (StorageClass (self st)), RRS (StorageClass (self st)))
       ∧ self st' = self st
       ∧ vars st'
         = (if bool_decide (Scheme (RRS (StorageClass (self st))) ≠ ""
                            ∨ Scheme (Standard (StorageClass (self st))) ≠ "")
            then withIsStorageClass true (vars st) else vars st)).
Proof. split; [apply GetStorageClass_None|apply GetStorageClass_Some]. Qed.

(** X10: what [SetStorageClass] stores, [GetStorageClass] returns,
    whenever the parity rules accept the schemes that are set. *)
Theorem SetStorageClass_then_GetStorageClass st standardClass rrsClass :
  (Scheme rrsClass ≠ "" →
   validateRRS (Parity rrsClass) (Parity standardClass) = None) →
  (Scheme standardClass ≠ "" →
   validateSS (Parity standardClass) (Parity rrsClass) = None) →
  ∃ st',
    GetStorageClass validateRRS validateSS
      (SetStorageClass standardClass rrsClass st).2
    = Some ((standardClass, rrsClass), st')
    ∧ self st' = self (SetStorageClass standardClass rrsClass st).2.
Proof.
  intros Hrrs Hss.
  destruct (GetStorageClass validateRRS validateSS
              (SetStorageClass standardClass rrsClass st).2)
    as [[classes st']|] eqn:E.
  - apply GetStorageClass_Some in E as Hsome. destruct Hsome as (-> & Hself & _).
    by exists st'.
  - apply GetStorageClass_None in E as [[Hs [e He]]|[Hs [e He]]]; simpl in *.
    + rewrite Hrrs in He; done.
    + rewrite Hss in He; done.
Qed.

End StorageClassFacts.

End FurtherAccessorFacts.

(** ** The duplicate-key check, further *)

Section FurtherDupKeysFacts.

Context {R : MapRange}.
Context {P : gjson.Parser}.

Implicit Types (key value : gjson.Result).

(** X11: an error of the check names a key that is duplicated and the
    scope it is duplicated in.  Whenever [doCheckDupJSONKeys] fails, the
    document has an object, found by following member names from the
    root, in which some name occurs more than once, and the error is
    the key of the call, then those member names, then that name, each
    followed by an arrow. *)
Theorem doCheckDupJSONKeys_error_is_sound key value e :
  doCheckDupJSONKeys key value = Some e →
  ∃ path scope name,
    ScopeAt value path scope
    ∧ (1 < count_occ String.eq_dec scope.*1 name)%nat
    ∧ e = gjson.StringOf key +:+ " => " +:+ duplicateMessage path name.
Proof.
  remember (gjson.size value) as n eqn:Hn. revert key value e Hn.
  induction n as [n IH] using lt_wf_ind. intros key value e ->.
  destruct value as [|t str|members|elements].
  - by rewrite doCheckDupJSONKeys_Zero.
  - by rewrite doCheckDupJSONKeys_Literal.
  - destruct (members_split members)
      as [Hall|(before & [name v] & after & e' & -> & Hall & He')].
    + destruct (decide (NoDup members.*1)) as [Hnd|Hdup].
      { by rewrite (proj2 (doCheckDupJSONKeys_Object_None key members)). }
      destruct (doCheckDupJSONKeys_Object_dup key members Hall Hdup)
        as (name & Hcount & ->).
      intros [= <-]. exists [], members, name. split; [constructor|done].
    + rewrite (doCheckDupJSONKeys_Object_member key before (name, v) after e')
        by done.
      intros [= <-]. unfold memberVerdict in He'. simpl in He'.
      assert ((name, v) ∈ (before ++ (name, v) :: after)%list) as Hin
        by set_solver.
      destruct (IH _ (size_member (name, v) _ Hin) _ v e' eq_refl He')
        as (path & scope & dup & Hat & Hcount & ->).
      exists (name :: path), scope, dup. split; [by econstructor|done].
  - by rewrite doCheckDupJSONKeys_Array.
Qed.

(** X12: the error of a nested scope comes first.  When a member of an
    object fails and the members before it pass, the object fails with
    the error of that member under its own key, whatever members follow
    and whether or not the names of the object itself are distinct. *)
Theorem doCheckDupJSONKeys_first_failing_member key before name v after e :
  Forall (λ kv, doCheckDupJSONKeys (gjson.Literal gjson.String kv.1) kv.2 = None)
         before →
  doCheckDupJSONKeys (gjson.Literal gjson.String name) v = Some e →
  doCheckDupJSONKeys key (gjson.Object (before ++ (name, v) :: after)%list)
  = Some (gjson.StringOf key +:+ " => " +:+ e).
Proof.
  intros Hall He.
  by apply (doCheckDupJSONKeys_Object_member key before (name, v) after e).
Qed.

(** X13: a text that does not parse to an object passes the check: a
    text with no value, a literal, an array. *)
Theorem checkDupJSONKeys_not_an_object (minioConfigFile json : string) :
  (∀ members, gjson.Parse json ≠ gjson.Object members) →
  checkDupJSONKeys minioConfigFile json = None.
Proof.
  intros Hobj. unfold checkDupJSONKeys.
  destruct (gjson.Parse json) as [|t str|members|elements].
  - apply doCheckDupJSONKeys_Zero.
  - apply doCheckDupJSONKeys_Literal.
  - by destruct (Hobj members).
  - apply doCheckDupJSONKeys_Array.
Qed.

End FurtherDupKeysFacts.

(** ** Load and publish, further *)

Section FurtherLifecycleFacts.

Context {notifier : Type}.
Context {V : Validity}.
Context {R : MapRange}.
Context {P : gjson.Parser}.
Context {E : Collaborators notifier}.

Implicit Types (p : Process notifier) (g : Globals) (st : MState notifier)
  (s srvCfg : serverConfig notifier).

(** X14: [getValidConfig] returns a configuration exactly when
    [quick.Load] gives it, its version is the expected one, the text of
    the file reads and has no duplicate key the check sees, its root
    credential is valid or the credentials come from the environment,
    and its notification block validates. *)
Theorem getValidConfig_inr g srvCfg :
  getValidConfig g = inr srvCfg
  ↔ quick_Load getConfigFile unloadedConfig = inr srvCfg
    ∧ Version srvCfg = serverConfigVersion
    ∧ (∃ jsonBytes, ioutil_ReadFile getConfigFile = inr jsonBytes
                    ∧ checkDupJSONKeys minioConfigFile jsonBytes = None)
    ∧ (globalIsEnvCreds g = true ∨ IsValid (Credential srvCfg) = true)
    ∧ Validate (Notify srvCfg) = None.
Proof.
  unfold getValidConfig. fold (@unloadedConfig notifier E). split.
  - destruct (quick_Load _ _) as [e|loaded] eqn:Hload; [done|].
    destruct (decide (Version loaded ≠ serverConfigVersion)) as [Hv|Hv%dec_stable];
      [done|].
    destruct (ioutil_ReadFile _) as [e|jsonBytes] eqn:Hread; [done|].
    destruct (checkDupJSONKeys _ _) as [e|] eqn:Hdup; [done|].
    destruct (globalIsEnvCreds g) eqn:Henv, (IsValid (Credential loaded)) eqn:Hvalid;
      simpl; try done;
      (destruct (Validate _) as [e|] eqn:Hnotify; [done|]);
      intros [= <-]; repeat split; eauto.
  - intros (Hload & Hv & (jsonBytes & Hread & Hdup) & Hcred & Hnotify).
    rewrite Hload, decide_False by (by intros ?).
    rewrite Hread, Hdup, Hnotify.
    destruct Hcred as [-> | ->]; [done|]. by rewrite andb_false_r.
Qed.

(** What [envOverrides] leaves behind. *)
Lemma envOverrides_spec st :
  overriddenBy (vars st) (self st) (self (envOverrides st).2)
  ∧ vars (envOverrides st).2 = vars st.
Proof.
  unfold envOverrides, overriddenBy.
  destruct (globalIsEnvCreds (vars st)), (globalIsEnvBrowser (vars st)),
    (globalIsEnvRegion (vars st)), (globalIsEnvDomainName (vars st)),
    (globalIsStorageClass (vars st)); simpl; repeat split; done.
Qed.

(** What [mirror] assigns. *)
Lemma mirror_spec s g :
  globalActiveCred (mirror s g)
    = (if globalIsEnvCreds g then globalActiveCred g else Credential s)
  ∧ globalIsBrowserEnabled (mirror s g)
    = (if globalIsEnvBrowser g then globalIsBrowserEnabled g else Browser s)
  ∧ globalServerRegion (mirror s g)
    = (if globalIsEnvRegion g then globalServerRegion g else Region s)
  ∧ globalDomainName (mirror s g)
    = (if globalIsEnvDomainName g then globalDomainName g else Domain s)
  ∧ sameEnvFlags g (mirror s g)
  ∧ globalIsStorageClass (mirror s g) = globalIsStorageClass g
  ∧ globalStandardStorageClass (mirror s g) = globalStandardStorageClass g
  ∧ globalRRStorageClass (mirror s g) = globalRRStorageClass g.
Proof.
  unfold mirror, sameEnvFlags.
  destruct g as [c isc ec eb er ed ac be sr dn ssc rrsc]. simpl.
  destruct ec, eb, er, ed; simpl; repeat split; done.
Qed.

(** The process a successful [loadConfig] leaves behind. *)
Lemma loadConfig_Returned_None p p' :
  loadConfig p = Returned None p' →
  ∃ srvCfg,
    getValidConfig (globals p) = inr srvCfg
    ∧ let s := self (envOverrides {| self := srvCfg; vars := globals p |}).2 in
      let g := mirror s (withCredCache ∅ (globals p)) in
      globalServerConfig p' = Some s
      ∧ ((globalIsStorageClass (globals p) = true ∧ globals p' = g)
         ∨ (globalIsStorageClass (globals p) = false
            ∧ ∃ g', (g' = g ∨ g' = withIsStorageClass true g)
                    ∧ globals p'
                      = withStorageClasses (Standard (StorageClass s))
                          (RRS (StorageClass s)) g')).
Proof.
  unfold loadConfig.
  destruct (getValidConfig (globals p)) as [e|srvCfg] eqn:Hvalid; [done|].
  intros H. exists srvCfg. split; [done|]. simpl.
  destruct (envOverrides_spec {| self := srvCfg; vars := globals p |})
    as [_ Hvars]. simpl in Hvars. rewrite Hvars in H.
  set (s := self (envOverrides {| self := srvCfg; vars := globals p |}).2) in *.
  destruct (mirror_spec s (withCredCache ∅ (globals p)))
    as (_ & _ & _ & _ & _ & Hflag & _). simpl in Hflag.
  rewrite Hflag in H.
  destruct (globalIsStorageClass (globals p)); simpl in H.
  - injection H as <-. split; [done|]. by left.
  - destruct (GetStorageClass _ _ _) as [[classes st']|] eqn:Hsc; [|done].
    injection H as <-. apply GetStorageClass_Some in Hsc as (-> & Hself & Hv).
    simpl in *. rewrite Hself. split; [done|]. right. split; [done|].
    rewrite Hv. destruct (bool_decide _); eauto.
Qed.

(** X15: after a successful [loadConfig] the mirrored variables agree
    with the published store: the active credential, the browser flag,
    the region, the domain and the two storage classes are those of the
    store; the cache is empty; the flags that say what comes from the
    environment are as before. *)
Theorem loadConfig_mirrors_the_store p p' :
  loadConfig p = Returned None p' →
  ∃ s, globalServerConfig p' = Some s
       ∧ mirrored s (globals p')
       ∧ globalServerCredCache (globals p') = ∅
       ∧ sameEnvFlags (globals p) (globals p').
Proof.
  intros (srvCfg & _ & Hpub & Hglobals)%loadConfig_Returned_None.
  simpl in Hpub, Hglobals.
  destruct (envOverrides_spec {| self := srvCfg; vars := globals p |})
    as [(Hc & Hb & Hr & Hd & Hs & _) _]. simpl in *.
  set (s := self (envOverrides {| self := srvCfg; vars := globals p |}).2) in *.
  destruct (mirror_spec s (withCredCache ∅ (globals p)))
    as (Mc & Mb & Mr & Md & Mflags & _ & Mss & Mrrs).
  pose proof (mirror_cache s (withCredCache ∅ (globals p))) as Mcache.
  unfold sameEnvFlags in *. simpl in *.
  exists s. split; [done|].
  assert (mirrored s (mirror s (withCredCache ∅ (globals p)))
          ∨ globalIsStorageClass (globals p) = false) as Hm.
  { destruct (globalIsStorageClass (globals p)) eqn:Hflag; [left|by right].
    unfold mirrored. rewrite Mc, Mb, Mr, Md, Mss, Mrrs, Hc, Hb, Hr, Hd, Hs.
    by destruct (globalIsEnvCreds (globals p)), (globalIsEnvBrowser (globals p)),
      (globalIsEnvRegion (globals p)), (globalIsEnvDomainName (globals p)). }
  destruct Hglobals as [[Hflag ->]|[Hflag (g' & Hg' & ->)]].
  - destruct Hm as [Hm|Hm]; [done|congruence].
  - assert (mirrored s (withStorageClasses (Standard (StorageClass s))
                          (RRS (StorageClass s)) g')) as Hmir.
    { unfold mirrored.
      destruct Hg' as [-> | ->]; simpl; rewrite Mc, Mb, Mr, Md, Hc, Hb, Hr, Hd;
        by destruct (globalIsEnvCreds (globals p)),
             (globalIsEnvBrowser (globals p)),
             (globalIsEnvRegion (globals p)),
             (globalIsEnvDomainName (globals p)). }
    split; [exact Hmir|]. destruct Hg' as [-> | ->]; simpl; done.
Qed.

(** X16: the store a successful [loadConfig] publishes is the
    configuration the validation returned, with the values from the
    environment in place of its own wherever the flag of a value is
    set; its version, notification block and bucket credentials are
    those of the file. *)
Theorem loadConfig_publishes_overridden p p' :
  loadConfig p = Returned None p' →
  ∃ srvCfg s,
    getValidConfig (globals p) = inr srvCfg
    ∧ globalServerConfig p' = Some s
    ∧ overriddenBy (globals p) srvCfg s.
Proof.
  intros (srvCfg & Hvalid & Hpub & _)%loadConfig_Returned_None.
  exists srvCfg, (self (envOverrides {| self := srvCfg; vars := globals p |}).2).
  split; [done|]. split; [done|].
  apply (envOverrides_spec {| self := srvCfg; vars := globals p |}).
Qed.

(** X17: [newConfig] publishes the new store and empties the cache
    whatever [quick.Save] answers, and returns that answer.  The store
    is the default configuration with the values from the environment in
    place of its own; no variable but the cache changes. *)
Theorem newConfig_publishes p :
  ∃ s,
    globalServerConfig (newConfig p).2 = Some s
    ∧ overriddenBy (globals p) newServerConfig s
    ∧ (newConfig p).1 = quick_Save getConfigFile s
    ∧ globals (newConfig p).2 = withCredCache ∅ (globals p).
Proof.
  destruct (envOverrides_spec {| self := newServerConfig; vars := globals p |})
    as [Hover Hvars]. simpl in Hvars.
  exists (self (envOverrides {| self := newServerConfig; vars := globals p |}).2).
  unfold newConfig, Save, field. simpl. rewrite Hvars. done.
Qed.

(** X18: [loadConfig] ends the process exactly when the validation
    passes, the storage classes do not come from the environment, and a
    scheme the loaded configuration sets has a parity its rule
    refuses. *)
Theorem loadConfig_exits p :
  loadConfig p = Exited
  ↔ ∃ srvCfg,
      getValidConfig (globals p) = inr srvCfg
      ∧ globalIsStorageClass (globals p) = false
      ∧ (rrsRefused validateRRSParity srvCfg
         ∨ standardRefused validateSSParity srvCfg).
Proof.
  unfold loadConfig.
  destruct (getValidConfig (globals p)) as [e|srvCfg] eqn:Hvalid.
  { split; [done|]. by intros (? & ? & _). }
  destruct (envOverrides_spec {| self := srvCfg; vars := globals p |})
    as [(_ & _ & _ & _ & Hs & _) Hvars]. simpl in Hs, Hvars. rewrite Hvars.
  set (s := self (envOverrides {| self := srvCfg; vars := globals p |}).2) in *.
  destruct (mirror_spec s (withCredCache ∅ (globals p)))
    as (_ & _ & _ & _ & _ & Hflag & _). simpl in Hflag. rewrite Hflag.
  destruct (globalIsStorageClass (globals p)); simpl.
  { split; [done|]. by intros (? & _ & ? & _). }
  assert (∀ v, rrsRefused v s ↔ rrsRefused v srvCfg) as Hrrs.
  { intros v. unfold rrsRefused. by rewrite Hs. }
  assert (∀ v, standardRefused v s ↔ standardRefused v srvCfg) as Hss.
  { intros v. unfold standardRefused. by rewrite Hs. }
  pose proof (GetStorageClass_None validateRRSParity validateSSParity
                {| self := s; vars := mirror s (withCredCache ∅ (globals p)) |})
    as Hnone. simpl in Hnone. rewrite Hrrs, Hss in Hnone.
  destruct (GetStorageClass _ _ _) as [[classes st']|] eqn:Hsc.
  - split; [done|]. intros (cfg & [= <-] & _ & Href).
    by apply Hnone in Href.
  - split; [|done]. intros _. exists srvCfg. split; [done|]. split; [done|].
    by apply Hnone.
Qed.

End FurtherLifecycleFacts.

(** ** The further properties on concrete stores *)

Lemma twoBuckets_buckets :
  Bucket (self twoBuckets)
  = madeMap (<["videos" := videosCred]> (<["photos" := photosCred]> ∅)).
Proof. reflexivity. Qed.

Lemma twoBuckets_consistent : cacheConsistent twoBuckets.
Proof.
  unfold twoBuckets. apply SetCredentialForBucket_consistent,
    SetCredentialForBucket_consistent, empty_cache_consistent. reflexivity.
Qed.

Lemma overwrite_forgets_previous_witness :
  let r := SetCredentialForBucket "photos" halfCred twoBuckets in
  r.1 = Some photosCred
  ∧ cacheOf r.2 !! "photoskey" = None
  ∧ GetCredentialForKey "photoskey" r.2 = (zeroCredentials, r.2).
Proof.
  destruct (overwrite_forgets_previous twoBuckets "photos" photosCred halfCred)
    as (Hprev & Hgone & Hzero).
  - discriminate.
  - vm_compute. reflexivity.
  - vm_compute. reflexivity.
  - vm_compute. discriminate.
  - split; [exact Hprev|]. split; [exact Hgone|]. apply Hzero.
    + vm_compute. discriminate.
    + intros b c Hne Hb. rewrite twoBuckets_buckets in Hb.
      rewrite lookup_credMap in Hb. simpl in Hb.
      apply lookup_insert_Some in Hb as [[_ <-]|[_ Hb]];
        [vm_compute; discriminate|].
      apply lookup_insert_Some in Hb as [[<- _]|[_ Hb]]; [by destruct Hne|].
      by rewrite lookup_empty in Hb.
Defined.

Lemma GetCredentialForKey_returns_current_witness :
  (GetCredentialForKey "videoskey" twoBuckets).1 = Credential (self twoBuckets)
  ∨ ∃ b, Bucket (self twoBuckets) !! b
         = Some (GetCredentialForKey "videoskey" twoBuckets).1.
Proof.
  apply (GetCredentialForKey_returns_current twoBuckets "videoskey").
  - exact twoBuckets_consistent.
  - vm_compute. reflexivity.
Defined.

Lemma GetCredentialForKey_again_witness :
  GetCredentialForKey "photoskey"
    (GetCredentialForKey "photoskey" (withCache ∅ twoBuckets)).2
  = GetCredentialForKey "photoskey" (withCache ∅ twoBuckets).
Proof.
  apply (GetCredentialForKey_again listedRange (withCache ∅ twoBuckets) "photoskey").
  vm_compute. reflexivity.
Defined.

Lemma GetCredentialForKey_cache_transparent_witness :
  (GetCredentialForKey "videoskey" twoBuckets).1
  = (GetCredentialForKey "videoskey" (withCache ∅ twoBuckets)).1.
Proof.
  apply (GetCredentialForKey_cache_transparent listedRange twoBuckets "videoskey").
  - exact twoBuckets_consistent.
  - intros b1 b2 c1 c2 H1 H2 Hk. rewrite twoBuckets_buckets in H1, H2.
    rewrite lookup_credMap in H1, H2. simpl in H1, H2.
    apply lookup_insert_Some in H1 as [[_ <-]|[_ H1]];
      apply lookup_insert_Some in H2 as [[_ <-]|[_ H2]]; try done.
    + apply lookup_insert_Some in H2 as [[_ <-]|[_ H2]];
        [vm_compute in Hk; discriminate Hk|by rewrite lookup_empty in H2].
    + apply lookup_insert_Some in H1 as [[_ <-]|[_ H1]];
        [vm_compute in Hk; discriminate Hk|by rewrite lookup_empty in H1].
    + apply lookup_insert_Some in H1 as [[_ <-]|[_ H1]];
        [|by rewrite lookup_empty in H1].
      apply lookup_insert_Some in H2 as [[_ <-]|[_ H2]];
        [done|by rewrite lookup_empty in H2].
Defined.

Lemma SetCredentialForBucket_other_buckets_witness :
  (GetCredentialForBucket "videos"
     (SetCredentialForBucket "photos" halfCred twoBuckets).2).1
  = (GetCredentialForBucket "videos" twoBuckets).1.
Proof.
  apply (SetCredentialForBucket_other_buckets twoBuckets "photos" halfCred "videos").
  - discriminate.
  - discriminate.
  - vm_compute. by eexists.
Defined.

Lemma SetCredentialForBucket_then_GetBucketForKey_witness :
  (GetBucketForKey "photoskey"
     (SetCredentialForBucket "photos" photosCred freshState).2).1 = "photos".
Proof.
  apply (SetCredentialForBucket_then_GetBucketForKey freshState "photos" photosCred).
  - discriminate.
  - vm_compute. discriminate.
  - intros b c _ Hb. vm_compute in Hb. discriminate Hb.
  - vm_compute. by eexists.
Defined.

Lemma GetStorageClass_spec_witness :
  let st := (SetStorageClass {| Scheme := "EC"; Parity := 4 |}
                             {| Scheme := "EC"; Parity := 2 |} freshState).2 in
  self (markStorageClass st) = self st
  ∧ globalIsStorageClass (vars (markStorageClass st)) = true.
Proof.
  cbv zeta.
  destruct (GetStorageClass_spec (λ _ _, None) (λ _ _, None)
              (SetStorageClass {| Scheme := "EC"; Parity := 4 |}
                               {| Scheme := "EC"; Parity := 2 |} freshState).2)
    as [_ Hsome].
  destruct (Hsome ({| Scheme := "EC"; Parity := 4 |}, {| Scheme := "EC"; Parity := 2 |})
              (markStorageClass
                 (SetStorageClass {| Scheme := "EC"; Parity := 4 |}
                                  {| Scheme := "EC"; Parity := 2 |} freshState).2))
    as (_ & Hself & Hvars); [vm_compute; reflexivity|].
  split; [exact Hself|]. rewrite Hvars. vm_compute. reflexivity.
Defined.

Lemma SetStorageClass_then_GetStorageClass_witness :
  ∃ st',
    GetStorageClass (λ _ _, None) (λ _ _, None)
      (SetStorageClass {| Scheme := "EC"; Parity := 4 |}
                       {| Scheme := "EC"; Parity := 2 |} freshState).2
    = Some (({| Scheme := "EC"; Parity := 4 |}, {| Scheme := "EC"; Parity := 2 |}), st')
    ∧ self st' = self (SetStorageClass {| Scheme := "EC"; Parity := 4 |}
                                       {| Scheme := "EC"; Parity := 2 |} freshState).2.
Proof.
  by apply (SetStorageClass_then_GetStorageClass (λ _ _, None) (λ _ _, None)
              freshState).
Defined.

Lemma doCheckDupJSONKeys_error_is_sound_witness :
  ∃ path scope name,
    ScopeAt docDuplicate path scope
    ∧ (1 < count_occ String.eq_dec scope.*1 name)%nat
    ∧ "config.json => a => `x` entry is duplicated"
      = "config.json" +:+ " => " +:+ duplicateMessage path name.
Proof.
  apply (doCheckDupJSONKeys_error_is_sound
           (gjson.Literal gjson.String "config.json") docDuplicate).
  vm_compute. reflexivity.
Defined.

Lemma doCheckDupJSONKeys_first_failing_member_witness :
  doCheckDupJSONKeys (gjson.Literal gjson.String "config.json")
    (gjson.Object
       [("version", gjson.Literal gjson.String "23");
        ("a", gjson.Object [("x", gjson.Literal gjson.Number "1");
                            ("x", gjson.Literal gjson.Number "2")]);
        ("version", gjson.Literal gjson.String "24")])
  = Some "config.json => a => `x` entry is duplicated".
Proof.
  apply (doCheckDupJSONKeys_first_failing_member
           (gjson.Literal gjson.String "config.json")
           [("version", gjson.Literal gjson.String "23")] "a"
           (gjson.Object [("x", gjson.Literal gjson.Number "1");
                          ("x", gjson.Literal gjson.Number "2")])
           [("version", gjson.Literal gjson.String "24")]
           "a => `x` entry is duplicated").
  - repeat constructor.
  - vm_compute. reflexivity.
Defined.

Lemma checkDupJSONKeys_not_an_object_witness :
  checkDupJSONKeys (P := readsAs gjson.Zero) "config.json" "" = None.
Proof.
  apply (checkDupJSONKeys_not_an_object (P := readsAs gjson.Zero)).
  intros members H. discriminate H.
Defined.

Lemma loadConfig_mirrors_the_store_witness :
  ∃ s, globalServerConfig reloadedProcess = Some s
       ∧ mirrored s (globals reloadedProcess)
       ∧ globalServerCredCache (globals reloadedProcess) = ∅
       ∧ sameEnvFlags (globals servingProcess) (globals reloadedProcess).
Proof.
  apply (loadConfig_mirrors_the_store (P := readsAs docCurrent) (E := currentFile)
           servingProcess).
  vm_compute. reflexivity.
Defined.

Lemma loadConfig_publishes_overridden_witness :
  ∃ srvCfg s,
    getValidConfig (P := readsAs docCurrent) (E := currentFile)
      (globals servingProcess) = inr srvCfg
    ∧ globalServerConfig reloadedProcess = Some s
    ∧ overriddenBy (globals servingProcess) srvCfg s.
Proof.
  apply (loadConfig_publishes_overridden (P := readsAs docCurrent)
           (E := currentFile) servingProcess).
  vm_compute. reflexivity.
Defined.

(** ** Setting the same credential again *)

Section SetAgain.

Context {notifier : Type}.
Context {V : Validity}.

(** X19: when a call of [SetCredentialForBucket] has returned, setting
    the same credential for the same bucket once more returns too and
    leaves the state as it is after the first time: the eviction of the
    previous credential, which is the new one, is undone by the
    insertion that follows it. *)
Theorem SetCredentialForBucket_again (st : MState notifier) bucket creds :
  bucket ≠ "" →
  is_Some (SetCredentialForBucket bucket creds st).1 →
  let st' := (SetCredentialForBucket bucket creds st).2 in
  is_Some (SetCredentialForBucket bucket creds st').1
  ∧ (SetCredentialForBucket bucket creds st').2 = st'.
Proof.
  intros Hne Hmade%SetCredentialForBucket_returns; [|done]. simpl.
  rewrite (SetCredentialForBucket_unfold st) by done. simpl.
  set (cache := if IsValid _ then _ else _).
  rewrite SetCredentialForBucket_unfold by done.
  split; [by eexists|].
  unfold withCache, withBuckets, cacheOf, index. simpl.
  seeEntries. simpl.
  rewrite lookup_insert_eq, insert_insert_eq. simpl.
  assert ((if IsValid creds
           then delete (AccessKey creds) (<[AccessKey creds:=creds]> cache)
           else <[AccessKey creds:=creds]> cache) = delete (AccessKey creds) cache
          ∨ (if IsValid creds
             then delete (AccessKey creds) (<[AccessKey creds:=creds]> cache)
             else <[AccessKey creds:=creds]> cache)
            = <[AccessKey creds:=creds]> cache) as [-> | ->].
  { destruct (IsValid creds); [left; apply delete_insert_eq|by right]. }
  - by rewrite insert_delete_eq.
  - by rewrite insert_insert_eq.
Qed.

End SetAgain.

Lemma SetCredentialForBucket_again_witness :
  is_Some (SetCredentialForBucket "photos" photosCred
             (SetCredentialForBucket "photos" photosCred freshState).2).1
  ∧ (SetCredentialForBucket "photos" photosCred
       (SetCredentialForBucket "photos" photosCred freshState).2).2
    = (SetCredentialForBucket "photos" photosCred freshState).2.
Proof.
  apply (SetCredentialForBucket_again freshState "photos" photosCred).
  - discriminate.
  - vm_compute. by eexists.
Defined.
